(** * roadrunner-server/websockets: the gateway plugin and its access validator

    A shallow embedding of [plugin.go] (package [websockets]) and of the
    [validator] package, with the properties of the gateway specification
    stated and settled against it.

    Conventions.
    - A Go [string] is a [string] (a sequence of bytes, one [ascii] each);
      a [[]byte] that is produced from text is a [string] as well, a
      [[]byte] that is a payload buffer is a [list Byte.byte].
    - A Go [map] is a [gmap]; the order in which [range] (or an encoder)
      visits a map is not fixed by the language, it is an explicit input.
    - A call through an interface ([http.ResponseWriter], the broker
      [Reader], the worker pool, the executor) is an event of a trace, and
      what the callee answers is an input of the model. *)

From Stdlib Require Import ZArith String Ascii List.
From stdpp Require Import base option gmap list strings.

(** ** Byte strings: the parts of Go's [strings] package that are used *)

Module Strings.

(** [strings.IndexByte(s, c)]: the first index of [c], [None] for -1. *)
Fixpoint IndexByte (s : string) (c : ascii) : option nat :=
  match s with
  | EmptyString => None
  | String a s' => if Ascii.eqb a c then Some 0 else S <$> IndexByte s' c
  end.

(** [strings.LastIndexByte(s, c)]. *)
Fixpoint LastIndexByte (s : string) (c : ascii) : option nat :=
  match s with
  | EmptyString => None
  | String a s' =>
      match LastIndexByte s' c with
      | Some i => Some (S i)
      | None => if Ascii.eqb a c then Some 0 else None
      end
  end.

(** [strings.ContainsRune(s, r)] for a rune below 0x80: the rune is one
    byte and never occurs inside the encoding of another rune. *)
Definition ContainsRune (s : string) (c : ascii) : bool :=
  match IndexByte s c with Some _ => true | None => false end.

(** [s[:n]], for [n <= len(s)]. *)
Fixpoint slice_to (n : nat) (s : string) : string :=
  match n, s with
  | S n', String a s' => String a (slice_to n' s')
  | _, _ => EmptyString
  end.

(** [s[n:]], for [n <= len(s)]. *)
Fixpoint slice_from (n : nat) (s : string) : string :=
  match n, s with
  | S n', String _ s' => slice_from n' s'
  | _, _ => s
  end.

(** [s[lo:hi]]. *)
Definition slice (lo hi : nat) (s : string) : string :=
  slice_to (hi - lo) (slice_from lo s).

(** [s[i]], [None] when out of range (Go panics there). *)
Definition byte_at (i : nat) (s : string) : option ascii := String.get i s.

(** [strings.ReplaceAll(s, old, new)] where [old] is one byte. *)
Fixpoint ReplaceAll (s : string) (old : ascii) (new : string) : string :=
  match s with
  | EmptyString => EmptyString
  | String a s' =>
      if Ascii.eqb a old then new +:+ ReplaceAll s' old new
      else String a (ReplaceAll s' old new)
  end.

(** [strings.Join(elems, sep)]. *)
Fixpoint Join (elems : list string) (sep : string) : string :=
  match elems with
  | [] => ""
  | [x] => x
  | x :: rest => x +:+ sep +:+ Join rest sep
  end.

(** No byte of [s] is [c]. *)
Definition free_of (c : ascii) (s : string) : Prop := IndexByte s c = None.

End Strings.

Import Strings.

(** ** [net.SplitHostPort] (Go standard library), as [FetchIP] calls it *)

Module Net.

Inductive AddrError : Type :=
| missingPort
| tooManyColons
| missingBracket
| unexpectedOpen
| unexpectedClose.

Definition addrErr (why : AddrError) : string * string * option AddrError :=
  ("", "", Some why).

(** The standard library's function: the port starts after the last
    colon; a host in brackets ends at the first [']'], which must sit just
    before that colon; any other colon, and any bracket elsewhere, is an
    error, and an error comes with empty host and port. *)
Definition SplitHostPort (hostport : string)
  : string * string * option AddrError :=
  match LastIndexByte hostport ":" with
  | None => addrErr missingPort
  | Some i =>
      let bracketed :=
        match byte_at 0 hostport with
        | Some c => Ascii.eqb c "["
        | None => false
        end in
      let parsed : (string * nat * nat) + AddrError :=
        if bracketed then
          match IndexByte hostport "]" with
          | None => inr missingBracket
          | Some e =>
              if Nat.eqb (e + 1) (String.length hostport) then inr missingPort
              else if Nat.eqb (e + 1) i then inl (slice 1 e hostport, 1, e + 1)
              else
                match byte_at (e + 1) hostport with
                | Some c =>
                    if Ascii.eqb c ":" then inr tooManyColons
                    else inr missingPort
                | None => inr missingPort
                end
          end
        else
          let host := slice_to i hostport in
          match IndexByte host ":" with
          | Some _ => inr tooManyColons
          | None => inl (host, 0, 0)
          end in
      match parsed with
      | inr why => addrErr why
      | inl (host, j, k) =>
          match IndexByte (slice_from j hostport) "[" with
          | Some _ => addrErr unexpectedOpen
          | None =>
              match IndexByte (slice_from k hostport) "]" with
              | Some _ => addrErr unexpectedClose
              | None => (host, slice_from (i + 1) hostport, None)
              end
          end
      end
  end.

End Net.

(** ** Package [validator]: [FetchIP] *)

(** [FetchIP]: an address without a colon is returned as it is; otherwise
    the host that [net.SplitHostPort] reports, its error dropped. *)
Definition FetchIP (pair : string) : string :=
  if negb (ContainsRune pair ":") then pair
  else
    let '(addr, _, _) := Net.SplitHostPort pair in
    addr.

(** ** Package [errors] (roadrunner-server/errors) *)

Module errors.

Inductive Kind : Type :=
| Undefined
| TimeOut
| Disabled
| OtherKind (n : nat).

#[global] Instance Kind_eq_dec : EqDecision Kind.
Proof. solve_decision. Defined.

(** An error value. What the plugin builds with [errors.E] and
    [errors.Errorf] is kept as the call that built it: [E_op op] is
    [errors.E(op)], [E (Some op) err] is [errors.E(op, err)], [E None err]
    is [errors.E(err)]. Every other error (of the broker, the worker pool,
    a codec, the transport) is [Foreign], with the kind it carries when it
    is an [*errors.Error] with a kind. *)
Inductive error : Type :=
| Foreign (kind : option Kind) (msg : string)
| E_op (op : string)
| E (op : option string) (cause : error)
| Errorf (format : string) (arg : Z).

(** [errors.Is(kind, err)]: whether [err] is an [*errors.Error] of that
    kind; an error without a kind of its own is asked for its cause. *)
Fixpoint Is (kind : Kind) (err : error) : bool :=
  match err with
  | Foreign (Some k) _ => bool_decide (k = kind)
  | Foreign None _ => false
  | E_op _ => false
  | E _ cause => Is kind cause
  | Errorf _ _ => false
  end.

End errors.

Import errors.

(** A Go result pair [(x, err)]; [None] is [nil]. *)
Definition result (A : Type) : Type := (option A * option error)%type.

(** ** [net/http]: the parts of a request and of a header map that are used *)

Module http.

(** A value of the attribute bag, a Go [interface{}]: the two kinds that
    the validator stores, and any other value, given by what the JSON
    encoder writes for it ([None]: the encoder reports an error). *)
Inductive AttrValue : Type :=
| VBool (b : bool)
| VString (s : string)
| VOther (enc : option string).

#[global] Instance AttrValue_eq_dec : EqDecision AttrValue.
Proof. solve_decision. Defined.

Definition StatusOK : Z := 200.
Definition StatusBadRequest : Z := 400.
Definition StatusMethodNotAllowed : Z := 405.

(** [*http.Request]. [URL_String] is what [r.URL.String()] returns, [TLS]
    is [r.TLS != nil], [OtelTracerName] is the string stored in the
    context under [utils.OtelTracerNameKey], [attrs] is the attribute bag
    stored in the context, when there is one. *)
Record Request : Type := mkRequest {
  RemoteAddr : string;
  Proto : string;
  Method : string;
  URL_String : string;
  URL_Path : string;
  URL_Host : string;
  URL_RawQuery : string;
  Host : string;
  TLS : bool;
  Header : gmap string (list string);
  OtelTracerName : option string;
  attrs : option (gmap string AttrValue)
}.

Definition with_attrs (r : Request) (a : option (gmap string AttrValue))
  : Request :=
  mkRequest (RemoteAddr r) (Proto r) (Method r) (URL_String r) (URL_Path r)
    (URL_Host r) (URL_RawQuery r) (Host r) (TLS r) (Header r)
    (OtelTracerName r) a.

Section Header.

(** [textproto.CanonicalMIMEHeaderKey]. *)
Variable canon : string -> string.

(** [Header.Get]: the first value under the canonical key, or [""]. *)
Definition Get (h : gmap string (list string)) (key : string) : string :=
  match h !! canon key with
  | Some (v :: _) => v
  | _ => ""
  end.

(** [Header.Add]: append under the canonical key. *)
Definition Add (h : gmap string (list string)) (key value : string)
  : gmap string (list string) :=
  <[canon key := (default [] (h !! canon key) ++ [value])%list]> h.

End Header.

End http.

(** ** Package [attributes] *)

Module attributes.

Import http.

(** Modelled from the spec: package [attributes] ([Init], [Set], [All]) is
    part of this repository but not among its sources. The spec has an
    "arbitrary string to value attribute bag" that belongs to the request,
    that is shared by everything that holds the request, and in which the
    join markers are stored for the time of a call. A request has at most
    one bag; [Init] gives the request a new, empty bag. *)
Definition Init (r : Request) : Request := with_attrs r (Some ∅).

(** Modelled from the spec: [All] is the bag of the request, an empty map
    when the request has none. *)
Definition All (r : Request) : gmap string AttrValue :=
  default ∅ (attrs r).

(** Modelled from the spec: [Set'] (the source's [Set]) stores [value]
    under [key] in the bag of the request, replacing what was there; the
    source checks its error, which is that the request has no bag. *)
Definition Set' (r : Request) (key : string) (value : AttrValue)
  : Request * option error :=
  match attrs r with
  | Some bag => (with_attrs r (Some (<[key := value]> bag)), None)
  | None => (r, Some (Foreign None "unable to find the attributes context key"))
  end.

(** The built-in [delete(attributes.All(r), key)]: on the bag of the
    request; on the temporary empty map when the request has none. *)
Definition delete_All (r : Request) (key : string) : Request :=
  with_attrs r (delete key <$> attrs r).

End attributes.

(** ** The JSON encoder (json-iterator, default configuration)

    [json.Marshal] of the validator package is json-iterator's, with its
    default configuration: a struct is written field by field in the order
    of declaration, a map is written entry by entry in the order in which
    the map iterator yields them (the default configuration does not sort
    map keys). What the encoder writes for a Go string (quotes and escape
    sequences) is a parameter, [WriteString]. *)

Module json.

Import http.

Section Encoder.

Variable WriteString : string -> string.

Definition WriteBool (b : bool) : string := if b then "true" else "false".

Definition WriteArray (items : list string) : string :=
  "[" +:+ Join items "," +:+ "]".

Definition WriteMember (key value : string) : string :=
  WriteString key +:+ ":" +:+ value.

Definition WriteObject (members : list string) : string :=
  "{" +:+ Join members "," +:+ "}".

(** A [[]string]. *)
Definition EncodeStrings (l : list string) : string :=
  WriteArray (WriteString <$> l).

(** An [interface{}] of the attribute bag. *)
Definition EncodeValue (v : AttrValue) : option string :=
  match v with
  | VBool b => Some (WriteBool b)
  | VString s => Some (WriteString s)
  | VOther enc => enc
  end.

(** A [map[string][]string], its entries in the order of the iterator. *)
Definition EncodeHeader (entries : list (string * list string)) : string :=
  WriteObject ((λ '(k, vs), WriteMember k (EncodeStrings vs)) <$> entries).

(** A [map[string]interface{}], its entries in the order of the
    iterator; an error when a value cannot be written. *)
Definition EncodeAttributes (entries : list (string * AttrValue))
  : option string :=
  WriteObject <$> mapM (λ '(k, v), WriteMember k <$> EncodeValue v) entries.

End Encoder.

(** What the encoder writes for a string that needs no escape sequence:
    the string between double quotes. *)
Definition quote (s : string) : string :=
  String "034" s +:+ String "034" EmptyString.

End json.

(** ** Package [validator] *)

Module validator.

Import http.

Definition joinServer : string := "ws:joinServer".
Definition joinTopics : string := "ws:joinTopics".

(** The worker's answer. *)
Record AccessValidator : Type := mkAccessValidator {
  Header : gmap string (list string);
  Status : Z;
  Body : list Byte.byte
}.

(** The request as the worker sees it (the fields [URI] and [Header] of
    the source are [URI_] and [Header_] here). *)
Record Request : Type := mkRequest {
  RemoteAddr : string;
  Protocol : string;
  Method : string;
  URI_ : string;
  Header_ : gmap string (list string);
  Cookies : gmap string string;
  RawQuery : string;
  Parsed : bool;
  Attributes : gmap string AttrValue
}.

(** [URI]: the request's URL without line breaks (the bytes 10 and 13),
    with scheme and host in front when the URL has no host of its own. *)
Definition URI (r : http.Request) : string :=
  let uri := URL_String r in
  let uri := ReplaceAll uri "010" "" in
  let uri := ReplaceAll uri "013" "" in
  if bool_decide (URL_Host r ≠ "") then uri
  else if TLS r then "https://" +:+ Host r +:+ uri
  else "http://" +:+ Host r +:+ uri.

(** The struct literal [&Request{...}], the same in both validators; the
    field [Parsed] is not set and keeps its zero value. *)
Definition newRequest (r : http.Request) : Request :=
  let rq := URL_RawQuery r in
  let rq := ReplaceAll rq "010" "" in
  let rq := ReplaceAll rq "013" "" in
  {| RemoteAddr := FetchIP (http.RemoteAddr r);
     Protocol := Proto r;
     Method := http.Method r;
     URI_ := URI r;
     Header_ := http.Header r;
     Cookies := ∅;
     RawQuery := rq;
     Parsed := false;
     Attributes := attributes.All r |}.

Section Marshal.

Variable WriteString : string -> string.
(** The order in which the encoder's map iterator yields the entries of
    a header map and of an attribute bag. *)
Variable header_order :
  gmap string (list string) -> list (string * list string).
Variable attr_order : gmap string AttrValue -> list (string * AttrValue).

(** [json.Marshal(req)]. *)
Definition Marshal (req : Request) : result string :=
  match json.EncodeAttributes WriteString (attr_order (Attributes req)) with
  | None => (None, Some (Foreign None "json: unsupported value"))
  | Some a =>
      let W := json.WriteMember WriteString in
      (Some (json.WriteObject
               [ W "remoteAddr" (WriteString (RemoteAddr req));
                 W "protocol" (WriteString (Protocol req));
                 W "method" (WriteString (Method req));
                 W "uri" (WriteString (URI_ req));
                 W "headers"
                   (json.EncodeHeader WriteString (header_order (Header_ req)));
                 W "cookies" (json.WriteObject []);
                 W "rawQuery" (WriteString (RawQuery req));
                 W "parsed" (json.WriteBool (Parsed req));
                 W "attributes" a ]),
       None)
  end.

(** [ServerAccessValidator]: the result pair, and the request with its
    bag as the call leaves it. *)
Definition ServerAccessValidator (r : http.Request)
  : result string * http.Request :=
  let op := "server_access_validator" in
  let '(r, err) := attributes.Set' r "ws:joinServer" (VBool true) in
  match err with
  | Some err => ((None, Some (E (Some op) err)), r)
  | None =>
      (* defer delete(attributes.All(r), joinServer) *)
      let deferred := λ r, attributes.delete_All r joinServer in
      let req := newRequest r in
      match Marshal req with
      | (_, Some err) => ((None, Some (E (Some op) err)), deferred r)
      | (data, None) => ((data, None), deferred r)
      end
  end.

(** [TopicsAccessValidator]. *)
Definition TopicsAccessValidator (r : http.Request) (topics : list string)
  : result string * http.Request :=
  let op := "topic_access_validator" in
  let '(r, err) :=
    attributes.Set' r "ws:joinTopics" (VString (Join topics ",")) in
  match err with
  | Some err => ((None, Some (E (Some op) err)), r)
  | None =>
      (* defer delete(attributes.All(r), joinTopics) *)
      let deferred := λ r, attributes.delete_All r joinTopics in
      let req := newRequest r in
      match Marshal req with
      | (_, Some err) => ((None, Some (E (Some op) err)), deferred r)
      | (data, None) => ((data, None), deferred r)
      end
  end.

End Marshal.

End validator.

(** ** Package [websockets]: [plugin.go] *)

Module websockets.

Import http validator.

Definition PluginName : string := "websockets".
Definition OriginHeaderKey : string := "Origin".

(** Modelled from the spec: the configuration type is declared in a file
    that is not among the sources; the spec lists the options [path],
    [broker] and [allowed_origins] (and the worker pool's). *)
Record Config : Type := mkConfig {
  Path : string;
  Broker : string;
  AllowedOrigin : list string
}.

(** [payload.Payload]: the two buffers. The capacity of a buffer is not
    modelled, its content (and so its length) is. *)
Record Payload : Type := mkPayload {
  Context : list Byte.byte;
  Body_ : list Byte.byte
}.

#[global] Instance Payload_inhabited : Inhabited Payload :=
  populate (mkPayload [] []).

(** A message of the broker. *)
Record Message : Type := mkMessage {
  Topic : string;
  Payload_ : list Byte.byte
}.

(** A [*payload.Payload] is an address of the heap of payloads. *)
Definition loc : Type := nat.

Inductive Level : Type := Debug | Info | Error.

(** What the plugin does to its collaborators, in the order it does it. *)
Inductive Event : Type :=
| RLock
| RUnlock
| Log (level : Level) (msg : string)
| SpanStart (tracer : string)
| SpanEnd
| NextServeHTTP
| WriteHeader (code : Z)
| Write (body : list Byte.byte)
| UpgradeHTTP
| NewExecutor (connectionID : string)
| StartCommandLoop (connectionID : string)
| CleanUp (connectionID : string)
| BodyClose
| ConnClose (connectionID : string)
| Queue (data : Message)
| ErrChSend (err : error)
| Panic.

(** The state that the plugin's code reads and writes: the heap of
    payloads and the free list of [pldPool], the registry [connections]
    (its keys), the header map of the response writer at hand, and the
    trace of calls on collaborators. *)
Record World : Type := mkWorld {
  heap : gmap loc Payload;
  pldPool : list loc;
  connections : gset string;
  w_Header : gmap string (list string);
  trace : list Event
}.

Definition init : World := mkWorld ∅ [] ∅ ∅ [].

Definition set_heap (f : gmap loc Payload -> gmap loc Payload) (σ : World) :=
  mkWorld (f (heap σ)) (pldPool σ) (connections σ) (w_Header σ) (trace σ).
Definition set_pldPool (f : list loc -> list loc) (σ : World) :=
  mkWorld (heap σ) (f (pldPool σ)) (connections σ) (w_Header σ) (trace σ).
Definition set_connections (f : gset string -> gset string) (σ : World) :=
  mkWorld (heap σ) (pldPool σ) (f (connections σ)) (w_Header σ) (trace σ).
Definition set_w_Header
  (f : gmap string (list string) -> gmap string (list string)) (σ : World) :=
  mkWorld (heap σ) (pldPool σ) (connections σ) (f (w_Header σ)) (trace σ).
Definition set_trace (f : list Event -> list Event) (σ : World) :=
  mkWorld (heap σ) (pldPool σ) (connections σ) (w_Header σ) (f (trace σ)).

(** The state monad of the plugin's code. *)
Definition M (A : Type) : Type := World -> A * World.

Definition ret {A} (a : A) : M A := λ σ, (a, σ).
Definition bind {A B} (m : M A) (k : A -> M B) : M B :=
  λ σ, let '(a, σ') := m σ in k a σ'.
Definition modify (f : World -> World) : M unit := λ σ, (tt, f σ).
Definition get {A} (f : World -> A) : M A := λ σ, (f σ, σ).

Notation "'do' x <- m ; k" := (bind m (λ x, k))
  (at level 10, x pattern, m at level 100, k at level 200,
   format "'[v' 'do'  x  <-  m ; '/' k ']'").
Notation "m ;; k" := (bind m (λ _, k))
  (at level 100, k at level 200, right associativity).

Definition emit (e : Event) : M unit :=
  modify (set_trace (λ t, (t ++ [e])%list)).

(** An optional error, logged when there is one. *)
Definition log_if_error (msg : string) (err : option error) : M unit :=
  match err with
  | Some _ => emit (Log Error msg)
  | None => ret tt
  end.

(** *** The pool of payloads *)

(** [pldPool.New], set by [Init]. *)
Definition New : Payload := {| Context := []; Body_ := [] |}.

(** [getPld]: [sync.Pool.Get] takes some item off the free list, or, when
    it finds none (the list is empty, or the pool chooses to behave as if
    it were), calls [New]. [choice] is the pool's choice: the index of the
    item it takes, or [None]. *)
Definition getPld (choice : option nat) : M loc :=
  λ σ,
    match choice ≫= (λ i, (λ l, (i, l)) <$> pldPool σ !! i) with
    | Some (i, l) => (l, set_pldPool (delete i) σ)
    | None =>
        let l := fresh (dom (heap σ)) in
        (l, set_heap <[l := New]> σ)
    end.

(** [putPld]: both buffers are replaced by empty ones, then the payload
    goes to the free list. *)
Definition putPld (pld : loc) : M unit :=
  modify (set_heap (alter (λ p, {| Context := []; Body_ := Body_ p |}) pld));;
  modify (set_heap (alter (λ p, {| Context := Context p; Body_ := [] |}) pld));;
  modify (set_pldPool (λ free, pld :: free)).

(** What the environment answers in the course of one request that is
    upgraded: the error of [ws.UpgradeHTTP], the UUID that is generated,
    the error of the command loop, of closing the body and of closing the
    connection. *)
Record Answers : Type := mkAnswers {
  upgrade_err : option error;
  new_uuid : string;
  loop_err : option error;
  body_close_err : option error;
  conn_close_err : option error
}.

Inductive LoopStatus : Type :=
| Returned   (* the goroutine has returned *)
| Waiting.   (* the goroutine is in [Next], no answer yet *)

Section Plugin.

(** [p.cfg]. *)
Variable cfg : Config.
(** [isOriginAllowed] is declared in a file that is not among the
    sources. *)
Variable isOriginAllowed : string -> Config -> bool.
(** [textproto.CanonicalMIMEHeaderKey]. *)
Variable canon : string -> string.
(** The order in which [range] yields the entries of a header map. *)
Variable range_order :
  gmap string (list string) -> list (string * list string).
(** [p.phpPool.Exec]: the worker's answer to a payload. *)
Variable Exec : Payload -> Payload + error.
(** [json.Unmarshal(data, val)] (goccy/go-json): [val] with the fields
    that [data] gives, or an error. *)
Variable Unmarshal :
  list Byte.byte -> AccessValidator -> AccessValidator + error.
(** The encoder of the validator package, see [validator.Marshal]. *)
Variable WriteString : string -> string.
Variable header_order :
  gmap string (list string) -> list (string * list string).
Variable attr_order : gmap string AttrValue -> list (string * AttrValue).

(** [exec]. The deferred [putPld] runs on every way out. *)
Definition exec (choice : option nat) (ctx : list Byte.byte)
  : M (result AccessValidator) :=
  let op := "exec" in
  do pd <- getPld choice;
  do res <-
    (modify (set_heap
               (alter (λ p, {| Context := ctx; Body_ := Body_ p |}) pd));;
     emit RLock;;
     do p <- get (λ σ, heap σ !!! pd);
     let answer := Exec p in
     emit RUnlock;;
     match answer with
     | inr err => ret (None, Some (E (Some op) err))
     | inl rsp =>
         let val := {| Header := ∅; Status := 0; Body := Body_ rsp |} in
         match Unmarshal (Context rsp) val with
         | inr err => ret (None, Some (E (Some op) err))
         | inl val => ret (Some val, None)
         end
     end);
  putPld pd;;
  ret res.

(** The bytes of a serialized request. *)
Definition bytes_of (data : option string) : list Byte.byte :=
  default [] (list_byte_of_string <$> data).

(** [defaultAccessValidator]: the function that [Serve] stores in
    [p.accessValidator]. It works on a copy of the request with a bag of
    its own, so the caller's request is what it was. *)
Definition defaultAccessValidator (choice : option nat)
    (r : http.Request) (topics : list string)
  : M (result AccessValidator) :=
  let op := "access_validator" in
  emit (Log Debug "validation");;
  let r := attributes.Init r in
  if bool_decide (length topics = 0) then
    let '((ctx, err), _) :=
      ServerAccessValidator WriteString header_order attr_order r in
    match err with
    | Some err => ret (None, Some (E (Some op) err))
    | None =>
        do (val, err) <- exec choice (bytes_of ctx);
        match err with
        | Some err => ret (None, Some (E None err))
        | None => ret (val, None)
        end
    end
  else
    let '((ctx, err), _) :=
      TopicsAccessValidator WriteString header_order attr_order r topics in
    match err with
    | Some err => ret (None, Some (E (Some op) err))
    | None =>
        do (val, err) <- exec choice (bytes_of ctx);
        match err with
        | Some _ => ret (None, Some (E_op op))
        | None =>
            match val with
            | None => emit Panic;; ret (None, None)
            | Some v =>
                if bool_decide (Status v ≠ StatusOK) then
                  ret (Some v,
                       Some (E (Some op)
                               (Errorf "access forbidden, code: %d" (Status v))))
                else ret (Some v, None)
            end
        end
    end.

(** The two nested loops of [Middleware] that copy the worker's headers
    to the response. *)
Definition propagate_headers (h : gmap string (list string)) : M unit :=
  modify (set_w_Header (λ w,
    foldl (λ w '(k, v), foldl (λ w x, Add canon w k x) w v)
          w (range_order h))).

(** The body of the handler that [Middleware] returns, from the test of
    the path on. [accessValidator] is the field [p.accessValidator]. *)
Definition handle
    (accessValidator : http.Request -> list string -> M (result AccessValidator))
    (a : Answers) (r : http.Request) : M unit :=
  if bool_decide (URL_Path r ≠ Path cfg) then emit NextServeHTTP
  else
    emit RLock;;
    if negb (isOriginAllowed (Get canon (http.Header r) OriginHeaderKey) cfg)
    then emit (WriteHeader StatusMethodNotAllowed)
    else
      do (val, err) <- accessValidator r [];
      emit RUnlock;;
      match err, val with
      | Some _, _ => emit (WriteHeader StatusBadRequest)
      | None, None => emit Panic
      | None, Some val =>
          if bool_decide (Status val ≠ StatusOK) then
            propagate_headers (Header val);;
            emit (WriteHeader (Status val));;
            emit (Write (Body val))
          else
            emit UpgradeHTTP;;
            match upgrade_err a with
            | Some _ => emit (Log Error "upgrade connection")
            | None =>
                let connectionID := new_uuid a in
                modify (set_connections (λ c, {[connectionID]} ∪ c));;
                emit (NewExecutor connectionID);;
                emit (Log Debug "websocket client connected");;
                emit (StartCommandLoop connectionID);;
                match loop_err a with
                | Some _ =>
                    emit (Log Error "command loop error, disconnecting")
                | None =>
                    modify (set_connections (λ c, c ∖ {[connectionID]}));;
                    emit (CleanUp connectionID);;
                    emit BodyClose;;
                    log_if_error "body close" (body_close_err a);;
                    emit (ConnClose connectionID);;
                    log_if_error "connection close" (conn_close_err a);;
                    emit (Log Debug "disconnected")
                end
            end
      end.

(** The handler that [Middleware] returns, applied to a request: the body,
    inside a span when the request names a tracer (the deferred [span.End]
    runs on every way out of the body). *)
Definition Middleware
    (accessValidator : http.Request -> list string -> M (result AccessValidator))
    (a : Answers) (r : http.Request) : M unit :=
  match OtelTracerName r with
  | Some val =>
      emit (SpanStart val);;
      handle accessValidator a r;;
      emit SpanEnd
  | None => handle accessValidator a r
  end.

(** The second goroutine of [Serve], the reader of the broker.
    [answers] is what [Next] returns, call after call. *)
Fixpoint Serve_reader (answers : list (Message + error)) : M LoopStatus :=
  let op := "websockets_plugin_serve" in
  match answers with
  | [] => ret Waiting
  | inr err :: _ =>
      if Is TimeOut err then ret Returned
      else emit (ErrChSend (E (Some op) err));; ret Returned
  | inl data :: rest => emit (Queue data);; Serve_reader rest
  end.

End Plugin.

Section Introspection.

(** [worker.BaseProcess], [process.State], and
    [processImpl.WorkerProcessState], which reads the state of the
    operating-system process of a worker and may fail. *)
Variables BaseProcess State : Type.
Variable WorkerProcessState : BaseProcess -> State + error.

(** The loop of [Workers]: [ps] is the slice built so far; [None] is the
    [nil] that the loop returns at the first worker whose state cannot be
    read. *)
Fixpoint Workers_loop (workers : list BaseProcess) (ps : list State)
  : option (list State) :=
  match workers with
  | [] => Some ps
  | w :: rest =>
      match WorkerProcessState w with
      | inr _ => None
      | inl state => Workers_loop rest (ps ++ [state])
      end
  end.

(** [Workers]. [workers] is what [p.workers()], that is
    [p.phpPool.Workers()], returns; [None] when there is no pool yet, where
    the call panics. The deferred [RUnlock] runs on every way out. *)
Definition Workers (workers : option (list BaseProcess))
  : M (option (list State)) :=
  emit RLock;;
  do res <-
    match workers with
    | None => emit Panic;; ret None
    | Some workers => ret (Workers_loop workers [])
    end;
  emit RUnlock;;
  ret res.

End Introspection.

Arguments Workers_loop {BaseProcess State} WorkerProcessState workers ps.
Arguments Workers {BaseProcess State} WorkerProcessState workers.

End websockets.

(** ** Package [websockets]: the life cycle of the plugin

    [Serve], [Stop] and [Reset] work on the fields of the plugin that the
    handler only reads, under the write lock; they have a trace of their
    own. *)

Module lifecycle.

Inductive Event : Type :=
| Lock
| Unlock
| Info (msg : string)
| GetDriver (key : string)
| NewWorkerPool
| NewWorkersPool
| Go_pool           (* the goroutine that creates the pool of workers *)
| Go_reader         (* the goroutine that reads the broker *)
| PoolReset
| WorkersPoolStop
| Cancel
| ErrChSend (err : error)
| Panic.

(** The fields of the plugin that [Serve], [Stop] and [Reset] use; a
    pointer or interface is [true] when it is not [nil]. *)
Record Plugin : Type := mkPlugin {
  subReader : bool;
  workersPool : bool;
  phpPool : bool;
  accessValidator : bool;
  trace : list Event
}.

Definition emit (e : Event) (p : Plugin) : Plugin :=
  mkPlugin (subReader p) (workersPool p) (phpPool p) (accessValidator p)
    (trace p ++ [e]).

(** [Serve], up to its [return]: the two goroutines are started, not run.
    [driver] is what [GetDriver] returns: whether the driver is not [nil],
    and the error. *)
Definition Serve (broker : string) (driver : bool * option error) (p : Plugin)
  : Plugin :=
  let op := "websockets_plugin_serve" in
  let p := emit (GetDriver broker) p in
  let p := mkPlugin driver.1 (workersPool p) (phpPool p) (accessValidator p)
             (trace p) in
  match driver.2 with
  | Some err => emit (ErrChSend (E (Some op) err)) p
  | None =>
      let p := emit Go_pool p in
      let p := emit NewWorkersPool p in
      let p := mkPlugin (subReader p) true (phpPool p) (accessValidator p)
                 (trace p) in
      emit Go_reader p
  end.

(** The first goroutine of [Serve]. [pool] is what [NewWorkerPool] returns:
    whether the pool is not [nil], and the error. *)
Definition Serve_pool (pool : bool * option error) (p : Plugin) : Plugin :=
  let op := "websockets_plugin_serve" in
  let p := emit Lock p in
  (* defer p.Unlock() *)
  let p := emit NewWorkerPool p in
  let p := mkPlugin (subReader p) (workersPool p) pool.1 (accessValidator p)
             (trace p) in
  let p :=
    match pool.2 with
    | Some err => emit (ErrChSend (E (Some op) err)) p
    | None =>
        mkPlugin (subReader p) (workersPool p) (phpPool p) true (trace p)
    end in
  emit Unlock p.

(** [Stop]. *)
Definition Stop (p : Plugin) : Plugin * option error :=
  let p := if workersPool p then emit WorkersPoolStop p else p in
  let p := emit Cancel p in
  (p, None).

(** [Reset]. [reset] is the error of [p.phpPool.Reset]; without a pool the
    call panics. The deferred [Unlock] runs on every way out. *)
Definition Reset (reset : option error) (p : Plugin) : Plugin * option error :=
  let op := "ws_plugin_reset" in
  let p := emit Lock p in
  (* defer p.Unlock() *)
  let p := emit (Info "reset signal was received") p in
  let '(p, res) :=
    if phpPool p then
      let p := emit PoolReset p in
      match reset with
      | Some err => (p, Some (E (Some op) err))
      | None => (emit (Info "plugin was successfully reset") p, None)
      end
    else (emit Panic p, None) in
  (emit Unlock p, res).

(** The plugin after [Init]. *)
Definition init : Plugin := mkPlugin false false false false [].

End lifecycle.

(** * The vocabulary of the properties

    Predicates and measures in which the properties are stated, and the
    concrete requests, workers and answers on which they are tried. *)

Import http validator websockets.

(** A host or a port in which no colon and no bracket occurs. *)
Definition plain (s : string) : Prop :=
  free_of ":" s ∧ free_of "[" s ∧ free_of "]" s.

(** [data] has [member] somewhere inside. *)
Definition carries (data member : string) : Prop :=
  ∃ pre post, data = pre +:+ member +:+ post.

(** What a validator makes of the encoder's result. *)
Definition wrap (op : string) (res : result string) : result string :=
  match res with
  | (_, Some err) => (None, Some (E (Some op) err))
  | (data, None) => (data, None)
  end.

(** The request of [r] while the marker [key] is set to [v]. *)
Definition marked (r : http.Request) (key : string) (v : AttrValue) : validator.Request :=
  newRequest (with_attrs r (Some (<[key := v]> (attributes.All r)))).

(** The bag of [r'] is the bag of [r] without [key], and nothing else of the
    request differs. *)
Definition released (key : string) (r r' : http.Request) : Prop :=
  attributes.All r' !! key = None
  ∧ (∀ k, k ≠ key -> attributes.All r' !! k = attributes.All r !! k)
  ∧ (is_Some (attrs r') <-> is_Some (attrs r))
  ∧ with_attrs r' (attrs r) = r.

(** A request of a browser to the gateway. *)
Definition sample_request : http.Request :=
  http.mkRequest "10.0.0.7:443" "HTTP/1.1" "GET" "/ws?room=1" "/ws" "" "room=1"
    "example.org" false
    {[ "Origin" := ["https://example.org"]; "Upgrade" := ["websocket"] ]}
    None None.

(** A bag that another middleware has filled. *)
Definition sample_bag : gmap string http.AttrValue :=
  {[ "user" := http.VString "alice"; "ws:joinServer" := http.VBool false ]}.

(** The object that the encoder writes for a request, given what it wrote
    for the headers and for the attributes. *)
Definition layout (W : string -> string) (req : validator.Request)
    (headers attributes : string) : string :=
  json.WriteObject
    [ json.WriteMember W "remoteAddr" (W (validator.RemoteAddr req));
      json.WriteMember W "protocol" (W (validator.Protocol req));
      json.WriteMember W "method" (W (validator.Method req));
      json.WriteMember W "uri" (W (validator.URI_ req));
      json.WriteMember W "headers" headers;
      json.WriteMember W "cookies" (json.WriteObject []);
      json.WriteMember W "rawQuery" (W (validator.RawQuery req));
      json.WriteMember W "parsed" (json.WriteBool (validator.Parsed req));
      json.WriteMember W "attributes" attributes ].

(** Two results of a validator that are both errors, or both data that
    differ at most in the order of the members of the [headers] object and
    of the [attributes] object. *)
Definition same_up_to_member_order (W : string -> string)
    (res1 res2 : result string) : Prop :=
  match res1, res2 with
  | (Some d1, None), (Some d2, None) =>
      ∃ req hm1 hm2 am1 am2,
        hm1 ≡ₚ hm2 ∧ am1 ≡ₚ am2
        ∧ d1 = layout W req (json.WriteObject hm1) (json.WriteObject am1)
        ∧ d2 = layout W req (json.WriteObject hm2) (json.WriteObject am2)
  | (None, Some _), (None, Some _) => True
  | _, _ => False
  end.

(** An order in which a map iterator may yield the entries of a map. *)
Definition iteration_order {V} (order : gmap string V -> list (string * V)) : Prop :=
  ∀ m, order m ≡ₚ map_to_list m.

(** A request with two headers and an empty bag. *)
Definition two_headers : http.Request :=
  http.mkRequest "10.0.0.7:443" "HTTP/1.1" "GET" "/ws" "/ws" "" "" "example.org"
    false {[ "A" := ["1"]; "B" := ["2"] ]} None (Some ∅).

(** The state with [events] added to the trace. *)
Definition logged (events : list Event) (σ : World) : World :=
  set_trace (λ t, (t ++ events)%list) σ.

(** Both buffers of the payload have length zero. *)
Definition zeroed (p : Payload) : Prop :=
  length (Context p) = 0 ∧ length (Body_ p) = 0.

(** The pool in the course of any number of calls of [exec], one beside the
    other: the state, and the payloads that the calls in progress hold. A
    call takes a payload with [getPld], writes to the payload it holds, and
    gives it back with [putPld]; the pool may drop an item at any time; the
    rest of the plugin's code leaves heap and pool alone. *)
Inductive pool_step : World * list loc -> World * list loc -> Prop :=
| step_get choice σ held :
    pool_step (σ, held) ((getPld choice σ).2, (getPld choice σ).1 :: held)
| step_use f l σ held :
    l ∈ held -> pool_step (σ, held) (set_heap (alter f l) σ, held)
| step_put l σ held1 held2 :
    pool_step (σ, held1 ++ l :: held2) ((putPld l σ).2, held1 ++ held2)
| step_drop i σ held :
    pool_step (σ, held) (set_pldPool (delete i) σ, held)
| step_other σ σ' held :
    heap σ' = heap σ -> pldPool σ' = pldPool σ -> pool_step (σ, held) (σ', held).

(** The free list and the payloads held are distinct addresses of the heap,
    and the payloads of the free list are zeroed. *)
Definition pool_inv (s : World * list loc) : Prop :=
  NoDup (pldPool s.1 ++ s.2)
  ∧ (∀ l, l ∈ pldPool s.1 ++ s.2 -> is_Some (heap s.1 !! l))
  ∧ (∀ l p, l ∈ pldPool s.1 -> heap s.1 !! l = Some p -> zeroed p).

(** What the worker answers to a payload, decoded: the response, or the
    error of the transport or of the decoder. *)
Definition worker_answer
    (Exec : Payload -> Payload + error)
    (Unmarshal : list Byte.byte -> AccessValidator -> AccessValidator + error)
    (p : Payload) : AccessValidator + error :=
  match Exec p with
  | inr err => inr err
  | inl rsp =>
      Unmarshal (Context rsp) {| Header := ∅; Status := 0; Body := Body_ rsp |}
  end.

(** A worker pool that answers every payload with an empty payload, and a
    decoder that reads the given status from every answer. *)
Definition empty_Exec (p : websockets.Payload) : websockets.Payload + error :=
  inl (websockets.mkPayload [] []).

Definition status_of (code : Z) (data : list Byte.byte)
    (val : validator.AccessValidator)
  : validator.AccessValidator + error :=
  inl (validator.mkAccessValidator ∅ code (validator.Body val)).

(** The event that opens the span around the handler's body. *)
Definition span_open (r : http.Request) : list Event :=
  match OtelTracerName r with Some val => [SpanStart val] | None => [] end.

(** The event that closes the span. *)
Definition span_close (r : http.Request) : list Event :=
  match OtelTracerName r with Some _ => [SpanEnd] | None => [] end.

(** The header map of the response after the two loops. *)
Definition propagated (canon : string -> string)
    (entries : list (string * list string))
    (w : gmap string (list string)) : gmap string (list string) :=
  foldl (λ w '(k, v), foldl (λ w x, Add canon w k x) w v) w entries.

(** The values under a key of a header map. *)
Definition Values (h : gmap string (list string)) (key : string) : list string :=
  default [] (h !! key).

(** The number of times the read lock is taken in a trace. *)
Definition acquired (t : list Event) : nat :=
  length (List.filter (λ e, match e with RLock => true | _ => false end) t).

(** The number of times the read lock is given back in a trace. *)
Definition released_locks (t : list Event) : nat :=
  length (List.filter (λ e, match e with RUnlock => true | _ => false end) t).

(** A configuration: the path, the broker, one allowed origin. *)
Definition sample_cfg : websockets.Config :=
  websockets.mkConfig "/ws" "memory" ["https://example.org"].

(** An origin policy for the examples: the origin is on the list. *)
Definition on_the_list (origin : string) (cfg : websockets.Config) : bool :=
  bool_decide (origin ∈ websockets.AllowedOrigin cfg).

(** A worker that answers every request with the given status. *)
Definition worker (status : Z)
  : http.Request -> list string -> websockets.M (result validator.AccessValidator) :=
  websockets.defaultAccessValidator empty_Exec (status_of status) json.quote
    map_to_list map_to_list None.

(** A request on the configured path from an origin that is not allowed. *)
Definition evil_request : http.Request :=
  http.mkRequest "10.0.0.9:50000" "HTTP/1.1" "GET" "/ws" "/ws" "" ""
    "example.org" false {[ "Origin" := ["https://evil.example"] ]} None None.

(** The command loop ends with an error of the transport. *)
Definition loop_fails : websockets.Answers :=
  websockets.mkAnswers None "5e2f" (Some (Foreign None "connection reset by peer"))
    None None.

(** The command loop ends with [nil]. *)
Definition loop_ends : websockets.Answers :=
  websockets.mkAnswers None "5e2f" None None None.

(** The answer of a worker that refuses, with a header of its own. *)
Definition refused : validator.AccessValidator :=
  validator.mkAccessValidator {[ "X-Reason" := ["banned"] ]} 403 [].

(** A value of [p.accessValidator] that refuses every request. *)
Definition refuse (r : http.Request) (topics : list string)
  : websockets.M (result validator.AccessValidator) :=
  websockets.ret (Some refused, None).

(** The two bytes that the validators take out of the query and the URL. *)
Definition LF : ascii := "010".
Definition CR : ascii := "013".

(** [s] has neither of the two. *)
Definition one_line (s : string) : Prop := free_of LF s ∧ free_of CR s.

(** A Go result pair that is a value without an error, or an error without
    a value. *)
Definition exactly_one {A} (res : result A) : Prop :=
  match res with
  | (Some _, None) | (None, Some _) => True
  | _ => False
  end.

(** Every value of the bag, the one under [key] apart, is one that the
    encoder can write. *)
Definition encodable_but (W : string -> string) (key : string)
    (bag : gmap string AttrValue) : Prop :=
  ∀ k v, bag !! k = Some v -> k ≠ key -> is_Some (json.EncodeValue W v).

(** What [Workers] returns, said in one piece: the states of all workers in
    their order, or nothing when one of them cannot be read. *)
Definition states_of {BaseProcess State}
    (WorkerProcessState : BaseProcess -> State + error)
    (workers : list BaseProcess) : option (list State) :=
  mapM (λ w, match WorkerProcessState w with
             | inl state => Some state
             | inr _ => None
             end) workers.

(** The number of nil dereferences in a trace. *)
Definition panics (t : list Event) : nat :=
  length (List.filter (λ e, match e with Panic => true | _ => false end) t).

(** A request for another path than the configured one. *)
Definition other_request : http.Request :=
  http.mkRequest "10.0.0.7:443" "HTTP/1.1" "GET" "/api/users" "/api/users" "" ""
    "example.org" false ∅ (Some "gateway") None.

(** A value of [p.accessValidator] that fails. *)
Definition unreachable (r : http.Request) (topics : list string)
  : websockets.M (result validator.AccessValidator) :=
  websockets.ret (None, Some (Foreign None "worker pool is down")).

(** A value of [p.accessValidator] that admits every request. *)
Definition accept (r : http.Request) (topics : list string)
  : websockets.M (result validator.AccessValidator) :=
  websockets.ret (Some (validator.mkAccessValidator ∅ 200 []), None).

(** The upgrade to a WebSocket fails. *)
Definition upgrade_fails : websockets.Answers :=
  websockets.mkAnswers (Some (Foreign None "bad handshake")) "5e2f" None None None.

(** The command loop ends with [nil]; closing the body fails. *)
Definition close_fails : websockets.Answers :=
  websockets.mkAnswers None "5e2f" None (Some (Foreign None "already closed")) None.

(** The number of times the write lock is taken in a trace of the life
    cycle. *)
Definition locked (t : list lifecycle.Event) : nat :=
  length (List.filter
            (λ e, match e with lifecycle.Lock => true | _ => false end) t).

(** The number of times the write lock is given back. *)
Definition unlocked (t : list lifecycle.Event) : nat :=
  length (List.filter
            (λ e, match e with lifecycle.Unlock => true | _ => false end) t).

(** A pool of workers that times out on every payload. *)
Definition timed_out_Exec (p : websockets.Payload) : websockets.Payload + error :=
  inr (Foreign (Some errors.TimeOut) "allocate timeout").

(** * Properties *)

(** ** Byte strings *)

#[local] Arguments Ascii.eqb : simpl never.
#[local] Arguments String.append !_ _ / : simpl nomatch.

Section StringFacts.

Implicit Types (s t : string) (c a : ascii).

Lemma IndexByte_app_free s t c :
  free_of c s ->
  IndexByte (s +:+ t) c = (λ i, String.length s + i) <$> IndexByte t c.
Proof.
  unfold free_of. induction s as [|a s IH]; simpl.
  - by destruct (IndexByte t c).
  - destruct (Ascii.eqb a c); [done|].
    destruct (IndexByte s c) eqn:Hs; [done|]. intros _.
    rewrite IH by done. by destruct (IndexByte t c).
Qed.

Lemma IndexByte_cons_ne a s c :
  a ≠ c -> IndexByte (String a s) c = S <$> IndexByte s c.
Proof. intros H. simpl. by destruct (Ascii.eqb_spec a c). Qed.

Lemma IndexByte_cons_eq c s : IndexByte (String c s) c = Some 0.
Proof. simpl. by rewrite Ascii.eqb_refl. Qed.

Lemma free_of_app s t c : free_of c s -> free_of c t -> free_of c (s +:+ t).
Proof.
  intros Hs Ht. unfold free_of. rewrite IndexByte_app_free by done.
  by rewrite Ht.
Qed.

Lemma free_of_cons a s c : a ≠ c -> free_of c s -> free_of c (String a s).
Proof.
  intros Hne Hs. unfold free_of. rewrite IndexByte_cons_ne by done.
  by rewrite Hs.
Qed.

Lemma LastIndexByte_free s c : free_of c s -> LastIndexByte s c = None.
Proof.
  unfold free_of. induction s as [|a s IH]; simpl; [done|].
  destruct (Ascii.eqb a c); [done|].
  destruct (IndexByte s c); [done|]. intros _. by rewrite IH.
Qed.

Lemma LastIndexByte_app s t c i :
  LastIndexByte t c = Some i ->
  LastIndexByte (s +:+ t) c = Some (String.length s + i).
Proof. intros H. induction s as [|a s IH]; simpl; [done|]. by rewrite IH. Qed.

Lemma LastIndexByte_sep s t c :
  free_of c t ->
  LastIndexByte (s +:+ String c t) c = Some (String.length s).
Proof.
  intros Ht. rewrite (LastIndexByte_app _ _ _ 0).
  - f_equal. lia.
  - simpl. rewrite LastIndexByte_free by done. by rewrite Ascii.eqb_refl.
Qed.

Lemma slice_to_app s t : slice_to (String.length s) (s +:+ t) = s.
Proof.
  induction s as [|a s IH]; simpl; [by destruct t|]. by rewrite IH.
Qed.

Lemma slice_from_app s t : slice_from (String.length s) (s +:+ t) = t.
Proof. induction s as [|a s IH]; simpl; [done|]. by rewrite IH. Qed.

Lemma slice_from_app_plus s t n :
  slice_from (String.length s + n) (s +:+ t) = slice_from n t.
Proof. induction s as [|a s IH]; simpl; [done|]. by rewrite IH. Qed.

Lemma String_length_app s t :
  String.length (s +:+ t) = String.length s + String.length t.
Proof. induction s as [|a s IH]; simpl; [done|]. by rewrite IH. Qed.

Lemma append_assoc s t u : s +:+ t +:+ u = (s +:+ t) +:+ u.
Proof. induction s as [|a s IH]; simpl; [done|]. by rewrite IH. Qed.

Lemma ContainsRune_false s c : ContainsRune s c = false <-> free_of c s.
Proof. unfold ContainsRune, free_of. by destruct (IndexByte s c). Qed.

End StringFacts.

(** ** [FetchIP] *)

Example FetchIP_v4 : FetchIP "127.0.0.1:8080" = "127.0.0.1".
Proof. reflexivity. Qed.

Example FetchIP_v6 : FetchIP "[::1]:8080" = "::1".
Proof. reflexivity. Qed.

Example FetchIP_name : FetchIP "localhost" = "localhost".
Proof. reflexivity. Qed.

Example FetchIP_colons : FetchIP "a:b:c" = "".
Proof. reflexivity. Qed.

Lemma FetchIP_no_colon pair : ContainsRune pair ":" = false -> FetchIP pair = pair.
Proof. intros H. unfold FetchIP. by rewrite H. Qed.

Lemma SplitHostPort_plain host port :
  plain host -> plain port ->
  Net.SplitHostPort (host +:+ ":" +:+ port) = (host, port, None).
Proof.
  intros (Hc & Ho & Hcl) (Pc & Po & Pcl). unfold Net.SplitHostPort.
  change (":" +:+ port) with (String ":" port).
  rewrite LastIndexByte_sep by done.
  assert (byte_at 0 (host +:+ String ":" port) ≠ Some "["%char) as Hb.
  { destruct host as [|a host]; simpl; [done|].
    intros [= ->]. unfold free_of in Ho. by rewrite IndexByte_cons_eq in Ho. }
  destruct (byte_at 0 (host +:+ String ":" port)) as [b|] eqn:Hb0.
  - destruct (Ascii.eqb_spec b "[") as [->|_]; [done|].
    rewrite slice_to_app. rewrite Hc. simpl slice_from at 1 2.
    rewrite !IndexByte_app_free by done.
    rewrite !IndexByte_cons_ne by done. rewrite Po, Pcl. simpl.
    by rewrite slice_from_app_plus.
  - by destruct host.
Qed.

Lemma SplitHostPort_bracketed h port :
  free_of "[" h -> free_of "]" h -> plain port ->
  Net.SplitHostPort ("[" +:+ h +:+ "]:" +:+ port) = (h, port, None).
Proof.
  intros Ho Hcl (Pc & Po & Pcl). unfold Net.SplitHostPort.
  change ("[" +:+ h +:+ "]:" +:+ port)
    with (String "[" (h +:+ String "]" (String ":" port))).
  assert (LastIndexByte (String "[" (h +:+ String "]" (String ":" port))) ":"
          = Some (String.length h + 2)) as ->.
  { change (String "[" (h +:+ String "]" (String ":" port)))
      with (("[" +:+ h) +:+ String "]" (String ":" port)).
    erewrite (LastIndexByte_app _ _ _ 1).
    - f_equal. rewrite String_length_app. simpl. lia.
    - simpl. rewrite LastIndexByte_free by done. done. }
  simpl byte_at. cbv beta iota. rewrite Ascii.eqb_refl.
  assert (IndexByte (String "[" (h +:+ String "]" (String ":" port))) "]"
          = Some (String.length h + 1)) as ->.
  { rewrite IndexByte_cons_ne by done. rewrite IndexByte_app_free by done.
    rewrite IndexByte_cons_eq. simpl. f_equal. lia. }
  replace (String.length h + 1 + 1) with (String.length h + 2) by lia.
  assert (String.length h + 2
          ≠ String.length (String "[" (h +:+ String "]" (String ":" port)))) as Hlen.
  { simpl. rewrite String_length_app. simpl. lia. }
  apply Nat.eqb_neq in Hlen. rewrite Hlen, Nat.eqb_refl. cbv beta iota.
  assert (slice 1 (String.length h + 1)
            (String "[" (h +:+ String "]" (String ":" port))) = h) as ->.
  { unfold slice. replace (String.length h + 1 - 1) with (String.length h) by lia.
    simpl. apply slice_to_app. }
  assert (slice_from 1 (String "[" (h +:+ String "]" (String ":" port)))
          = h +:+ String "]" (String ":" port)) as -> by done.
  rewrite IndexByte_app_free by done. rewrite !IndexByte_cons_ne by done.
  rewrite Po. cbn [fmap option_fmap option_map].
  assert (∀ n, slice_from (String.length h + 2 + n)
                 (String "[" (h +:+ String "]" (String ":" port)))
               = slice_from n (String ":" port)) as Hfrom.
  { intros n. replace (String.length h + 2 + n)
      with (S (String.length h + S n)) by lia.
    cbn [slice_from]. by rewrite slice_from_app_plus. }
  rewrite <- (Nat.add_0_r (String.length h + 2)) at 1.
  rewrite !Hfrom. cbn [slice_from].
  rewrite IndexByte_cons_ne by done. by rewrite Pcl.
Qed.

(** The request that the worker sees has the remote address as [FetchIP]
    leaves it, whatever the bag of the request. *)
Lemma newRequest_RemoteAddr r a :
  validator.RemoteAddr (validator.newRequest (http.with_attrs r a))
  = FetchIP (http.RemoteAddr r).
Proof. reflexivity. Qed.

(** C3, as stated, fails: an IPv6 address without a port contains colons, so
    it is handed to [net.SplitHostPort], which finds too many colons and
    reports an empty host; [FetchIP] returns the empty string, not the
    address. *)
Lemma FetchIP_ipv6_without_port :
  Net.SplitHostPort "::1" = ("", "", Some Net.tooManyColons)
  ∧ FetchIP "::1" = ""
  ∧ FetchIP "::1" ≠ "::1".
Proof. repeat split; done. Qed.

(** C3 (amended): the [RemoteAddr] of the request that is serialized is
    [FetchIP] of the client's remote address; [FetchIP] returns an address
    that contains no colon unchanged; for [host:port] with a host and a port
    free of colons and brackets it returns [host]; for a bracketed host,
    [[h]:port], it returns [h]. *)
Theorem FetchIP_strips_port
    (r : http.Request) (a : option (gmap string http.AttrValue))
    (pair host port h : string)
    (Hpair : ContainsRune pair ":" = false)
    (Hhost : plain host) (Hport : plain port)
    (Hopen : free_of "[" h) (Hclose : free_of "]" h) :
  validator.RemoteAddr (validator.newRequest (http.with_attrs r a))
    = FetchIP (http.RemoteAddr r)
  ∧ FetchIP pair = pair
  ∧ FetchIP (host +:+ ":" +:+ port) = host
  ∧ FetchIP ("[" +:+ h +:+ "]:" +:+ port) = h.
Proof.
  split; [apply newRequest_RemoteAddr|].
  split; [by apply FetchIP_no_colon|].
  split.
  - unfold FetchIP.
    assert (ContainsRune (host +:+ ":" +:+ port) ":" = true) as ->.
    { unfold ContainsRune. destruct Hhost as (Hc & _).
      change (":" +:+ port) with (String ":" port).
      rewrite IndexByte_app_free by done. by rewrite IndexByte_cons_eq. }
    simpl negb. cbv iota. by rewrite SplitHostPort_plain.
  - unfold FetchIP.
    assert (ContainsRune ("[" +:+ h +:+ "]:" +:+ port) ":" = true) as ->.
    { unfold ContainsRune.
      destruct (IndexByte ("[" +:+ h +:+ "]:" +:+ port) ":") eqn:Hi; [done|].
      apply LastIndexByte_free in Hi.
      change ("[" +:+ h +:+ "]:" +:+ port)
        with (("[" +:+ h) +:+ String "]" (String ":" port)) in Hi.
      destruct Hport as (Pc & _).
      rewrite (LastIndexByte_app _ _ _ 1) in Hi; [done|].
      simpl. by rewrite LastIndexByte_free. }
    simpl negb. cbv iota. by rewrite SplitHostPort_bracketed.
Qed.

Lemma FetchIP_strips_port_witness :
  FetchIP "localhost" = "localhost"
  ∧ FetchIP "10.0.0.7:443" = "10.0.0.7"
  ∧ FetchIP "[fe80::1]:443" = "fe80::1".
Proof.
  destruct (FetchIP_strips_port
              (http.mkRequest "10.0.0.7:443" "HTTP/1.1" "GET" "/ws" "/ws" ""
                 "" "example.org" false ∅ None None)
              None "localhost" "10.0.0.7" "443" "fe80::1")
    as (_ & H1 & H2 & H3);
    [reflexivity | repeat split; reflexivity | repeat split; reflexivity
    | reflexivity | reflexivity |].
  split; [exact H1 | split; [exact H2 | exact H3]].
Defined.

(** ** The validators *)

Lemma append_empty_r s : s +:+ "" = s.
Proof. induction s as [|a s IH]; simpl; [done|]. by rewrite IH. Qed.

Lemma carries_refl s : carries s s.
Proof. exists "", "". simpl. by rewrite append_empty_r. Qed.

Lemma carries_app s pre post : carries (pre +:+ s +:+ post) s.
Proof. by exists pre, post. Qed.

Lemma carries_trans a b c : carries a b -> carries b c -> carries a c.
Proof.
  intros (p1 & q1 & ->) (p2 & q2 & ->). exists (p1 +:+ p2), (q2 +:+ q1).
  by rewrite <- !append_assoc.
Qed.

Lemma Join_carries (l : list string) (sep m : string) :
  m ∈ l -> carries (Join l sep) m.
Proof.
  induction l as [|x l IH]; [by intros ?%elem_of_nil|].
  intros [->|Hin]%elem_of_cons.
  - destruct l as [|y l]; [apply carries_refl|].
    exists "", (sep +:+ Join (y :: l) sep). done.
  - destruct l as [|y l]; [by apply elem_of_nil in Hin|].
    eapply carries_trans; [|by apply IH].
    change (Join (x :: y :: l) sep) with (x +:+ sep +:+ Join (y :: l) sep).
    exists (x +:+ sep), "". by rewrite <- append_assoc, append_empty_r.
Qed.

Lemma WriteObject_carries (members : list string) (m : string) :
  m ∈ members -> carries (json.WriteObject members) m.
Proof.
  intros Hin. eapply carries_trans; [|exact (Join_carries members "," m Hin)].
  apply carries_app.
Qed.

Lemma WriteMember_carries W key value : carries (json.WriteMember W key value) value.
Proof.
  unfold json.WriteMember. exists (W key +:+ ":"), "".
  by rewrite <- append_assoc, append_empty_r.
Qed.

(** [mapM] under a permutation of its input: it fails alike, and its
    results are permutations of each other. *)
Lemma mapM_Permutation {A B} (f : A -> option B) (l1 l2 : list A) :
  l1 ≡ₚ l2 ->
  match mapM f l1, mapM f l2 with
  | Some k1, Some k2 => k1 ≡ₚ k2
  | None, None => True
  | _, _ => False
  end.
Proof.
  induction 1 as [|x l1 l2 _ IH|x y l|l1 l2 l3 _ IH1 _ IH2]; simpl.
  - done.
  - destruct (f x); simpl; [|done].
    destruct (mapM f l1), (mapM f l2); simpl; try done. by constructor.
  - destruct (f x), (f y); simpl; try done;
      destruct (mapM f l); simpl; try done. apply perm_swap.
  - destruct (mapM f l1), (mapM f l2), (mapM f l3); try done. by etrans.
Qed.

Lemma mapM_elem_of {A B} (f : A -> option B) (l : list A) (k : list B) (x : A) :
  mapM f l = Some k -> x ∈ l -> ∃ y, f x = Some y ∧ y ∈ k.
Proof.
  intros H%mapM_Some. induction H as [|a b l k Hab _ IH].
  - by intros ?%elem_of_nil.
  - intros [->|Hin]%elem_of_cons.
    + exists b. split; [done|]. apply elem_of_cons. by left.
    + destruct (IH Hin) as (y & Hy & Hyk). exists y. split; [done|].
      apply elem_of_cons. by right.
Qed.

Section ValidatorFacts.

Variable WriteString : string -> string.
Variable header_order : gmap string (list string) -> list (string * list string).
Variable attr_order : gmap string AttrValue -> list (string * AttrValue).

#[local] Abbreviation SAV := (ServerAccessValidator WriteString header_order attr_order).
#[local] Abbreviation TAV := (TopicsAccessValidator WriteString header_order attr_order).
#[local] Abbreviation Marshal' := (Marshal WriteString header_order attr_order).

Lemma SAV_bag r bag :
  attrs r = Some bag ->
  SAV r = (wrap "server_access_validator" (Marshal' (marked r joinServer (VBool true))),
           with_attrs r (Some (delete joinServer bag))).
Proof.
  intros Hbag. unfold ServerAccessValidator, attributes.Set', marked, attributes.All.
  rewrite Hbag. simpl.
  destruct (Marshal' _) as [data [err|]]; simpl;
    unfold attributes.delete_All, with_attrs; simpl;
    by rewrite delete_insert_eq.
Qed.

Lemma TAV_bag r topics bag :
  attrs r = Some bag ->
  TAV r topics
  = (wrap "topic_access_validator"
       (Marshal' (marked r joinTopics (VString (Join topics ",")))),
     with_attrs r (Some (delete joinTopics bag))).
Proof.
  intros Hbag. unfold TopicsAccessValidator, attributes.Set', marked, attributes.All.
  rewrite Hbag. simpl.
  destruct (Marshal' _) as [data [err|]]; simpl;
    unfold attributes.delete_All, with_attrs; simpl;
    by rewrite delete_insert_eq.
Qed.

Lemma SAV_no_bag r : attrs r = None -> (SAV r).2 = r ∧ (SAV r).1.1 = None.
Proof.
  intros Hbag. unfold ServerAccessValidator, attributes.Set'. by rewrite Hbag.
Qed.

Lemma TAV_no_bag r topics :
  attrs r = None -> (TAV r topics).2 = r ∧ (TAV r topics).1.1 = None.
Proof.
  intros Hbag. unfold TopicsAccessValidator, attributes.Set'. by rewrite Hbag.
Qed.

Lemma released_delete key r bag :
  attrs r = Some bag -> released key r (with_attrs r (Some (delete key bag))).
Proof.
  intros Hbag. unfold released, attributes.All. rewrite Hbag. simpl.
  split; [apply lookup_delete_eq|].
  split; [intros k Hk; by apply lookup_delete_ne|].
  split; [done|]. destruct r; simpl in *; by subst.
Qed.

Lemma released_same key r : attrs r = None -> released key r r.
Proof.
  intros Hbag. unfold released, attributes.All. rewrite Hbag. simpl.
  split; [done|]. split; [done|]. split; [done|].
  destruct r; simpl in *; by subst.
Qed.

(** C5: whatever the request, the topics and the outcome of the encoder,
    after [ServerAccessValidator] the bag of the request has no [joinServer]
    entry and after [TopicsAccessValidator] it has no [joinTopics] entry;
    every other key of the bag holds what it held before the call, and the
    request differs in nothing else. *)
Theorem join_marker_released (r : http.Request) (topics : list string) :
  released joinServer r (SAV r).2 ∧ released joinTopics r (TAV r topics).2.
Proof.
  destruct (attrs r) as [bag|] eqn:Hbag.
  - rewrite (SAV_bag r bag Hbag), (TAV_bag r topics bag Hbag). simpl.
    split; by apply released_delete.
  - destruct (SAV_no_bag r Hbag) as [-> _].
    destruct (TAV_no_bag r topics Hbag) as [-> _].
    split; by apply released_same.
Qed.

(** The encoder writes every entry of the bag that it is given. *)
Hypothesis attr_order_valid : ∀ m, attr_order m ≡ₚ map_to_list m.

Lemma Marshal_carries req data k v e :
  Marshal' req = (Some data, None) ->
  Attributes req !! k = Some v ->
  json.EncodeValue WriteString v = Some e ->
  carries data (json.WriteMember WriteString k e).
Proof.
  unfold Marshal, json.EncodeAttributes. intros HM Hk He.
  destruct (mapM _ (attr_order (Attributes req))) as [ms|] eqn:Hms;
    simpl in HM; [|done].
  injection HM as <-.
  assert ((k, v) ∈ attr_order (Attributes req)) as Hkv.
  { rewrite attr_order_valid. by apply elem_of_map_to_list. }
  destruct (mapM_elem_of _ _ _ _ Hms Hkv) as (y & Hy & Hin).
  simpl in Hy. rewrite He in Hy. injection Hy as <-.
  eapply carries_trans; [|by apply (WriteObject_carries ms)].
  eapply carries_trans;
    [|apply (WriteMember_carries WriteString "attributes")].
  apply WriteObject_carries. apply list_elem_of_In. simpl. tauto.
Qed.

Lemma Marshal_total req :
  (∀ k v, Attributes req !! k = Some v -> is_Some (json.EncodeValue WriteString v)) ->
  ∃ data, Marshal' req = (Some data, None).
Proof.
  intros Hall. unfold Marshal, json.EncodeAttributes.
  destruct (mapM _ (attr_order (Attributes req))) as [ms|] eqn:Hms; simpl; [eauto|].
  apply mapM_None in Hms. apply Exists_exists in Hms as ([k v] & Hin & Hnone).
  rewrite attr_order_valid in Hin. apply elem_of_map_to_list in Hin.
  destruct (Hall k v Hin) as [e He]. simpl in Hnone. by rewrite He in Hnone.
Qed.

Lemma marked_lookup r0 key v :
  Attributes (marked r0 key v) !! key = Some v.
Proof.
  unfold marked, newRequest, attributes.All. simpl. apply lookup_insert_eq.
Qed.

Lemma marked_Init_total op key v r0 :
  is_Some (json.EncodeValue WriteString v) ->
  ∃ data, wrap op (Marshal' (marked (attributes.Init r0) key v)) = (Some data, None).
Proof.
  intros Hv.
  destruct (Marshal_total (marked (attributes.Init r0) key v)) as [data Hd].
  - intros k w. unfold marked, newRequest, attributes.All. simpl.
    intros [[_ <-]|[_ ?]]%lookup_insert_Some; done.
  - exists data. by rewrite Hd.
Qed.

(** On a request with the fresh bag of [attributes.Init] the validators
    return data. *)
Lemma SAV_Init r : ∃ data, (SAV (attributes.Init r)).1 = (Some data, None).
Proof.
  rewrite (SAV_bag _ ∅) by done. simpl. by apply marked_Init_total.
Qed.

Lemma TAV_Init r topics :
  ∃ data, (TAV (attributes.Init r) topics).1 = (Some data, None).
Proof.
  rewrite (TAV_bag _ _ ∅) by done. simpl. by apply marked_Init_total.
Qed.

Lemma wrap_Some op (res : result string) data :
  wrap op res = (Some data, None) -> res = (Some data, None).
Proof. destruct res as [d [err|]]; simpl; [done|]. by intros [= ->]. Qed.

Lemma wrap_carries r0 op key v e data :
  wrap op (Marshal' (marked r0 key v)) = (Some data, None) ->
  json.EncodeValue WriteString v = Some e ->
  carries data (json.WriteMember WriteString key e).
Proof.
  intros Hw He.
  destruct (Marshal' (marked r0 key v)) as [d [err|]] eqn:HM; simpl in Hw; [done|].
  injection Hw as ->. eapply Marshal_carries; [exact HM|apply marked_lookup|exact He].
Qed.

(** C6: for every request (with the fresh bag that the plugin gives it) and
    every list of topics, the validators produce a serialized request, and
    it carries the member [joinServer: true], respectively [joinTopics:
    the topics joined by commas], written as the encoder writes a member;
    and whenever a validator returns data for any request, the data is the
    encoding of a request whose attributes hold the marker with that value,
    and carries that member. *)
Theorem join_marker_serialized (r : http.Request) (topics : list string) :
  (∃ data, (SAV (attributes.Init r)).1 = (Some data, None)
           ∧ carries data (json.WriteMember WriteString joinServer "true"))
  ∧ (∃ data, (TAV (attributes.Init r) topics).1 = (Some data, None)
             ∧ carries data (json.WriteMember WriteString joinTopics
                               (WriteString (Join topics ","))))
  ∧ (∀ data, (SAV r).1 = (Some data, None) ->
             Marshal' (marked r joinServer (VBool true)) = (Some data, None)
             ∧ Attributes (marked r joinServer (VBool true)) !! joinServer
               = Some (VBool true)
             ∧ carries data (json.WriteMember WriteString joinServer "true"))
  ∧ (∀ data, (TAV r topics).1 = (Some data, None) ->
             Marshal' (marked r joinTopics (VString (Join topics ",")))
               = (Some data, None)
             ∧ Attributes (marked r joinTopics (VString (Join topics ","))) !! joinTopics
               = Some (VString (Join topics ","))
             ∧ carries data (json.WriteMember WriteString joinTopics
                               (WriteString (Join topics ",")))).
Proof.
  split; [|split; [|split]].
  - destruct (SAV_Init r) as [data Hd]. exists data. split; [done|].
    rewrite (SAV_bag _ ∅) in Hd by done. by eapply wrap_carries.
  - destruct (TAV_Init r topics) as [data Hd]. exists data. split; [done|].
    rewrite (TAV_bag _ _ ∅) in Hd by done. by eapply wrap_carries.
  - intros data Hd. destruct (attrs r) as [bag|] eqn:Hbag.
    + rewrite (SAV_bag r bag Hbag) in Hd. simpl in Hd.
      split; [by eapply wrap_Some|]. split; [apply marked_lookup|].
      by eapply wrap_carries.
    + destruct (SAV_no_bag r Hbag) as [_ Hn]. by rewrite Hd in Hn.
  - intros data Hd. destruct (attrs r) as [bag|] eqn:Hbag.
    + rewrite (TAV_bag r topics bag Hbag) in Hd. simpl in Hd.
      split; [by eapply wrap_Some|]. split; [apply marked_lookup|].
      by eapply wrap_carries.
    + destruct (TAV_no_bag r topics Hbag) as [_ Hn]. by rewrite Hd in Hn.
Qed.

End ValidatorFacts.

Lemma join_marker_released_witness :
  attributes.All
    (validator.ServerAccessValidator json.quote map_to_list map_to_list
       (http.with_attrs sample_request (Some sample_bag))).2
  !! validator.joinServer = None.
Proof.
  exact (proj1 (proj1 (join_marker_released json.quote map_to_list map_to_list
                         (http.with_attrs sample_request (Some sample_bag))
                         ["news"]))).
Defined.

Lemma join_marker_serialized_witness :
  ∃ data,
    (validator.TopicsAccessValidator json.quote map_to_list map_to_list
       (attributes.Init sample_request) ["news"; "sport"]).1 = (Some data, None)
    ∧ carries data
        (json.WriteMember json.quote validator.joinTopics (json.quote "news,sport")).
Proof.
  exact (proj1 (proj2 (join_marker_serialized json.quote map_to_list map_to_list
                         (λ m, reflexivity (map_to_list m))
                         sample_request ["news"; "sport"]))).
Defined.

(** ** Stability of the serialization *)

(** C9, as stated, fails: the encoder writes the headers in the order in
    which the map iterator yields them, and two iterations of the same map
    need not agree. Two calls on the same request whose iterations of the
    header map run in opposite directions write the two header members in
    opposite orders. *)
Lemma serialization_depends_on_map_order :
  iteration_order (λ m : gmap string (list string), reverse (map_to_list m))
  ∧ (validator.ServerAccessValidator json.quote map_to_list map_to_list
       two_headers).1
    ≠ (validator.ServerAccessValidator json.quote
         (λ m, reverse (map_to_list m)) map_to_list two_headers).1.
Proof.
  split; [intros m; apply reverse_Permutation|].
  vm_compute. discriminate.
Qed.

Section Stability.

Variable W : string -> string.
Variables ho1 ho2 : gmap string (list string) -> list (string * list string).
Variables ao1 ao2 : gmap string AttrValue -> list (string * AttrValue).

Lemma Marshal_layout ho ao req :
  Marshal W ho ao req
  = match mapM (λ '(k, v), json.WriteMember W k <$> json.EncodeValue W v)
            (ao (Attributes req)) with
    | Some am =>
        (Some (layout W req
                 (json.WriteObject
                    ((λ '(k, vs), json.WriteMember W k (json.EncodeStrings W vs))
                       <$> ho (Header_ req)))
                 (json.WriteObject am)), None)
    | None => (None, Some (Foreign None "json: unsupported value"))
    end.
Proof.
  unfold Marshal, json.EncodeAttributes, layout, json.EncodeHeader.
  by destruct (mapM _ (ao (Attributes req))).
Qed.

Lemma Marshal_ext req :
  (∀ m, ho1 m = ho2 m) -> (∀ m, ao1 m = ao2 m) ->
  Marshal W ho1 ao1 req = Marshal W ho2 ao2 req.
Proof. intros Hh Ha. unfold Marshal. by rewrite Hh, Ha. Qed.

Lemma Marshal_same_up_to_member_order op req :
  iteration_order ho1 -> iteration_order ho2 ->
  iteration_order ao1 -> iteration_order ao2 ->
  same_up_to_member_order W
    (wrap op (Marshal W ho1 ao1 req)) (wrap op (Marshal W ho2 ao2 req)).
Proof.
  intros Hh1 Hh2 Ha1 Ha2. rewrite !Marshal_layout.
  assert (ao1 (Attributes req) ≡ₚ ao2 (Attributes req)) as Ha
    by (by rewrite Ha1, Ha2).
  assert (ho1 (Header_ req) ≡ₚ ho2 (Header_ req)) as Hh
    by (by rewrite Hh1, Hh2).
  pose proof (mapM_Permutation
                (λ '(k, v), json.WriteMember W k <$> json.EncodeValue W v)
                _ _ Ha) as Hm.
  destruct (mapM _ (ao1 (Attributes req))) as [am1|],
           (mapM _ (ao2 (Attributes req))) as [am2|]; simpl; try done.
  eexists req, _, _, am1, am2. split; [|split; [exact Hm|split; reflexivity]].
  by apply fmap_Permutation.
Qed.

(** C9 (amended): what a validator returns is determined by the request, the
    topics and the order in which the encoder's map iterator yields the
    entries of the header map and of the attribute bag. Two calls on the
    same request (and topics) in which the iterator yields the same orders
    return the same bytes; whatever the orders, the two calls fail alike or
    return data that differ at most in the order of the members of the
    [headers] object and of the [attributes] object. *)
Theorem serialization_stable_up_to_map_order
    (r : http.Request) (topics : list string)
    (Hh1 : iteration_order ho1) (Hh2 : iteration_order ho2)
    (Ha1 : iteration_order ao1) (Ha2 : iteration_order ao2) :
  same_up_to_member_order W
    (ServerAccessValidator W ho1 ao1 r).1 (ServerAccessValidator W ho2 ao2 r).1
  ∧ same_up_to_member_order W
      (TopicsAccessValidator W ho1 ao1 r topics).1
      (TopicsAccessValidator W ho2 ao2 r topics).1
  ∧ ((∀ m, ho1 m = ho2 m) -> (∀ m, ao1 m = ao2 m) ->
     (ServerAccessValidator W ho1 ao1 r).1 = (ServerAccessValidator W ho2 ao2 r).1
     ∧ (TopicsAccessValidator W ho1 ao1 r topics).1
       = (TopicsAccessValidator W ho2 ao2 r topics).1).
Proof.
  destruct (attrs r) as [bag|] eqn:Hbag.
  - rewrite !(SAV_bag _ _ _ r bag Hbag), !(TAV_bag _ _ _ r topics bag Hbag). simpl.
    split; [by apply Marshal_same_up_to_member_order|].
    split; [by apply Marshal_same_up_to_member_order|].
    intros Hh Ha. by rewrite !(Marshal_ext _ Hh Ha).
  - unfold ServerAccessValidator, TopicsAccessValidator, attributes.Set'.
    rewrite Hbag. simpl. done.
Qed.

End Stability.

Lemma serialization_stable_up_to_map_order_witness :
  same_up_to_member_order json.quote
    (validator.ServerAccessValidator json.quote map_to_list map_to_list
       two_headers).1
    (validator.ServerAccessValidator json.quote
       (λ m, reverse (map_to_list m)) map_to_list two_headers).1.
Proof.
  exact (proj1 (serialization_stable_up_to_map_order json.quote
                  map_to_list (λ m, reverse (map_to_list m))
                  map_to_list map_to_list two_headers ["news"]
                  (λ m, reflexivity _) (λ m, reverse_Permutation _)
                  (λ m, reflexivity _) (λ m, reflexivity _))).
Defined.

(** ** The reader of the broker *)

Section Reader.

Lemma logged_nil σ : logged [] σ = σ.
Proof. destruct σ. unfold logged, set_trace. simpl. by rewrite app_nil_r. Qed.

Lemma logged_logged e1 e2 σ : logged e2 (logged e1 σ) = logged (e1 ++ e2) σ.
Proof. destruct σ. unfold logged, set_trace. simpl. by rewrite app_assoc. Qed.

Lemma emit_logged e σ : emit e σ = (tt, logged [e] σ).
Proof. reflexivity. Qed.

Lemma Serve_reader_messages (msgs : list Message) (rest : list (Message + error)) σ :
  Serve_reader ((inl <$> msgs) ++ rest) σ
  = Serve_reader rest (logged (Queue <$> msgs) σ).
Proof.
  revert σ. induction msgs as [|m msgs IH]; intros σ; simpl.
  - by rewrite logged_nil.
  - unfold bind. rewrite emit_logged, IH. by rewrite logged_logged.
Qed.

(** C7: the reader enqueues every message that [Next] returns and goes on;
    at the first error it returns, and what it has sent on the error
    channel by then is nothing when the error is a [TimeOut], and the error
    (under the operation's name) otherwise. While [Next] has returned
    messages only, the reader has sent nothing and is still reading. *)
Theorem Serve_reader_spec
    (msgs : list Message) (err : error) (rest : list (Message + error)) (σ : World) :
  Serve_reader ((inl <$> msgs) ++ inr err :: rest) σ
  = (Returned,
     logged ((Queue <$> msgs)
             ++ (if Is TimeOut err then []
                 else [ErrChSend (E (Some "websockets_plugin_serve") err)])) σ)
  ∧ Serve_reader (inl <$> msgs) σ = (Waiting, logged (Queue <$> msgs) σ).
Proof.
  split.
  - rewrite Serve_reader_messages. simpl. destruct (Is TimeOut err).
    + by rewrite app_nil_r.
    + unfold bind. rewrite emit_logged. unfold ret. by rewrite logged_logged.
  - rewrite <- (app_nil_r (inl <$> msgs)). by rewrite Serve_reader_messages.
Qed.

Example Serve_reader_timeout :
  (Serve_reader [inl (mkMessage "news" []); inr (Foreign (Some TimeOut) "ctx done")]
     init).2.(trace)
  = [Queue (mkMessage "news" [])].
Proof. reflexivity. Qed.

Example Serve_reader_broker_down :
  (Serve_reader [inl (mkMessage "news" []); inr (Foreign None "connection refused");
                 inl (mkMessage "late" [])] init).2.(trace)
  = [Queue (mkMessage "news" []);
     ErrChSend (E (Some "websockets_plugin_serve") (Foreign None "connection refused"))].
Proof. reflexivity. Qed.

End Reader.

(** ** The pool of payloads *)

Section Pool.

Lemma getPld_recycled i l σ :
  pldPool σ !! i = Some l ->
  getPld (Some i) σ = (l, set_pldPool (delete i) σ).
Proof. intros H. unfold getPld. simpl. by rewrite H. Qed.

Lemma getPld_fresh choice σ :
  choice ≫= (λ i, pldPool σ !! i) = None ->
  getPld choice σ
  = (fresh (dom (heap σ)), set_heap <[fresh (dom (heap σ)) := New]> σ).
Proof.
  intros H. unfold getPld. destruct choice as [i|]; simpl in *; [|done].
  by rewrite H.
Qed.

Lemma getPld_cases choice σ :
  (∃ i l, pldPool σ !! i = Some l
          ∧ getPld choice σ = (l, set_pldPool (delete i) σ))
  ∨ getPld choice σ
    = (fresh (dom (heap σ)), set_heap <[fresh (dom (heap σ)) := New]> σ).
Proof.
  destruct (choice ≫= (λ i, pldPool σ !! i)) as [l|] eqn:H.
  - left. destruct choice as [i|]; simpl in H; [|done].
    exists i, l. split; [done|]. by apply getPld_recycled.
  - right. by apply getPld_fresh.
Qed.

Lemma putPld_state l σ :
  (putPld l σ).2
  = set_pldPool (λ free, l :: free)
      (set_heap (alter (λ _, New) l) σ).
Proof.
  destruct σ. unfold putPld, bind, modify, set_heap, set_pldPool. simpl.
  f_equal. rewrite alter_alter_eq. apply alter_ext. by intros [??] _.
Qed.

Lemma fresh_not_held (s : World * list loc) :
  pool_inv s -> fresh (dom (heap s.1)) ∉ pldPool s.1 ++ s.2.
Proof.
  intros (_ & Hdom & _) Hin. apply Hdom in Hin.
  apply elem_of_dom in Hin. by apply is_fresh in Hin.
Qed.

Lemma pool_inv_init : pool_inv (init, []).
Proof.
  split; [constructor|]. split; [by intros l ?%elem_of_nil|].
  by intros l p ?%elem_of_nil.
Qed.

Lemma pool_inv_step s s' : pool_inv s -> pool_step s s' -> pool_inv s'.
Proof.
  intros Hinv Hstep. destruct Hstep as
    [choice σ held|f l σ held Hl|l σ held1 held2|i σ held|σ σ' held Hh Hp].
  - destruct (getPld_cases choice σ) as [(i & l & Hi & ->)| ->]; simpl.
    + destruct Hinv as (Hnd & Hdom & Hz); simpl in *.
      assert (delete i (pldPool σ) ++ l :: held ≡ₚ pldPool σ ++ held) as Hperm.
      { rewrite (delete_Permutation (pldPool σ) i l Hi) at 2.
        simpl. by rewrite Permutation_middle. }
      unfold pool_inv. simpl. split; [by rewrite Hperm|]. split.
      * intros l'. rewrite Hperm. apply Hdom.
      * intros l' p Hin. apply Hz.
        eapply elem_of_sublist; [exact Hin|]. apply sublist_delete.
    + pose proof (fresh_not_held _ Hinv) as Hfresh.
      destruct Hinv as (Hnd & Hdom & Hz); simpl in *.
      set (l := fresh (dom (heap σ))) in *.
      unfold pool_inv. simpl. split; [|split].
      * rewrite <- Permutation_middle. by constructor.
      * intros l'. rewrite <- Permutation_middle.
        intros [->|Hin]%elem_of_cons.
        -- rewrite lookup_insert_eq. eauto.
        -- rewrite lookup_insert_ne; [by apply Hdom|].
           intros <-. by apply Hfresh.
      * intros l' p Hin. rewrite lookup_insert_ne; [by apply Hz|].
        intros <-. apply Hfresh. apply elem_of_app. by left.
  - destruct Hinv as (Hnd & Hdom & Hz); simpl in *.
    unfold pool_inv. simpl. split; [done|]. split.
    + intros l' Hin. destruct (decide (l = l')) as [<-|Hne].
      * rewrite lookup_alter_eq. apply fmap_is_Some. by apply Hdom.
      * rewrite lookup_alter_ne by done. by apply Hdom.
    + intros l' p Hin. rewrite lookup_alter_ne; [by apply Hz|].
      intros <-. apply NoDup_app in Hnd as (_ & Hdisj & _). by apply (Hdisj l).
  - rewrite putPld_state. destruct Hinv as (Hnd & Hdom & Hz); simpl in *.
    assert ((l :: pldPool σ) ++ held1 ++ held2
            ≡ₚ pldPool σ ++ held1 ++ l :: held2) as Hperm.
    { simpl. by rewrite <- !Permutation_middle. }
    unfold pool_inv. simpl. split; [by rewrite Hperm|]. split.
    + intros l'. rewrite Hperm. intros Hin%Hdom.
      destruct (decide (l = l')) as [<-|Hne].
      * rewrite lookup_alter_eq. by apply fmap_is_Some.
      * by rewrite lookup_alter_ne.
    + intros l' p Hin. destruct (decide (l = l')) as [<-|Hne].
      * rewrite lookup_alter_eq. destruct (heap σ !! l); simpl; [|done].
        intros [= <-]. done.
      * rewrite lookup_alter_ne by done.
        apply elem_of_cons in Hin as [->|Hin]; [done|]. by apply Hz.
  - destruct Hinv as (Hnd & Hdom & Hz); simpl in *.
    assert (delete i (pldPool σ) ++ held `sublist_of` pldPool σ ++ held) as Hsub.
    { apply sublist_app; [apply sublist_delete|done]. }
    unfold pool_inv. simpl. split; [by eapply sublist_NoDup|]. split.
    + intros l Hin. apply Hdom. by eapply elem_of_sublist.
    + intros l p Hin. apply Hz. eapply elem_of_sublist; [exact Hin|].
      apply sublist_delete.
  - destruct Hinv as (Hnd & Hdom & Hz); simpl in *.
    unfold pool_inv. simpl. rewrite Hh, Hp. done.
Qed.

Lemma pool_inv_reachable s : rtc pool_step (init, []) s -> pool_inv s.
Proof.
  revert s. apply rtc_ind_r; [apply pool_inv_init|].
  intros y z _ Hstep Hy. by eapply pool_inv_step.
Qed.

Lemma exec_pool_steps Exec Unmarshal choice ctx σ held :
  rtc pool_step (σ, held) ((exec Exec Unmarshal choice ctx σ).2, held).
Proof.
  unfold exec, bind.
  pose proof (step_get choice σ held) as Hget.
  destruct (getPld choice σ) as [pd σ1]. simpl in Hget.
  eapply rtc_l; [exact Hget|].
  eapply rtc_l.
  { apply (step_use (λ p, {| Context := ctx; Body_ := Body_ p |}) pd).
    apply elem_of_cons. by left. }
  unfold modify, emit, modify, get, ret. simpl.
  set (σ2 := set_heap _ σ1).
  set (σ4 := set_trace (λ t, t ++ [RUnlock])
               (set_trace (λ t, t ++ [RLock]) σ2)).
  assert (rtc pool_step (σ2, pd :: held) ((putPld pd σ4).2, held)) as Hput.
  { eapply rtc_l; [by apply (step_other σ2 σ4)|].
    apply rtc_once. apply (step_put pd σ4 [] held). }
  repeat case_match; simplify_eq; exact Hput.
Qed.

(** C8: in every state that calls of [exec] (any number, one beside the
    other) can reach from the empty pool, every payload of the free list has
    both buffers of length zero; so the payload that [getPld] returns, taken
    off the free list or made by [New], has both buffers of length zero;
    and [putPld] of a payload that a call holds puts it on the free list
    with both buffers of length zero. *)
Theorem pooled_payloads_zeroed (s : World * list loc)
    (Hreach : rtc pool_step (init, []) s) :
  (∀ l, l ∈ pldPool s.1 -> ∃ p, heap s.1 !! l = Some p ∧ zeroed p)
  ∧ (∀ choice, ∃ p, heap (getPld choice s.1).2 !! (getPld choice s.1).1 = Some p
                    ∧ zeroed p)
  ∧ (∀ l, l ∈ s.2 ->
          pldPool (putPld l s.1).2 = l :: pldPool s.1
          ∧ ∃ p, heap (putPld l s.1).2 !! l = Some p ∧ zeroed p).
Proof.
  pose proof (pool_inv_reachable s Hreach) as Hinv.
  assert (∀ l, l ∈ pldPool s.1 -> ∃ p, heap s.1 !! l = Some p ∧ zeroed p) as Hfree.
  { destruct Hinv as (_ & Hdom & Hz). intros l Hl.
    destruct (Hdom l) as [p Hp]; [apply elem_of_app; by left|]. eauto. }
  split; [exact Hfree|]. split.
  - intros choice.
    destruct (getPld_cases choice s.1) as [(i & l & Hi & ->)| ->]; simpl.
    + apply Hfree. by eapply list_elem_of_lookup_2.
    + exists New. by rewrite lookup_insert_eq.
  - intros l Hl. rewrite putPld_state. simpl. split; [done|].
    destruct Hinv as (_ & Hdom & _).
    destruct (Hdom l) as [p Hp]; [apply elem_of_app; by right|].
    exists New. by rewrite lookup_alter_eq, Hp.
Qed.

Lemma pooled_payloads_zeroed_witness :
  ∃ p, heap (getPld (Some 0) (putPld 0 (getPld None init).2).2).2 !! 0 = Some p
       ∧ zeroed p.
Proof.
  refine (proj1 (proj2 (pooled_payloads_zeroed
                          ((putPld 0 (getPld None init).2).2, []) _)) (Some 0)).
  eapply rtc_l; [apply (step_get None init [])|].
  apply rtc_once. apply (step_put 0 (getPld None init).2 [] []).
Defined.

(** A call of [exec] on a state of the invariant leaves a state of the
    invariant. *)
Lemma exec_pool_inv Exec Unmarshal choice ctx σ held :
  pool_inv (σ, held) -> pool_inv ((exec Exec Unmarshal choice ctx σ).2, held).
Proof.
  intros Hinv. pose proof (exec_pool_steps Exec Unmarshal choice ctx σ held) as H.
  revert H. generalize ((exec Exec Unmarshal choice ctx σ).2, held).
  apply rtc_ind_r; [done|]. intros y z _ Hstep Hy. by eapply pool_inv_step.
Qed.

End Pool.

(** ** The default access validator *)

Section DefaultValidator.

Variable Exec : Payload -> Payload + error.
Variable Unmarshal : list Byte.byte -> AccessValidator -> AccessValidator + error.
Variable WriteString : string -> string.
Variable header_order : gmap string (list string) -> list (string * list string).
Variable attr_order : gmap string AttrValue -> list (string * AttrValue).

Lemma getPld_allocated choice σ held :
  pool_inv (σ, held) ->
  is_Some (heap (getPld choice σ).2 !! (getPld choice σ).1).
Proof.
  intros (_ & Hdom & _).
  destruct (getPld_cases choice σ) as [(i & l & Hi & ->)| ->]; simpl.
  - apply Hdom. simpl. apply elem_of_app. left. by eapply list_elem_of_lookup_2.
  - rewrite lookup_insert_eq. eauto.
Qed.

(** [exec] hands the worker a payload whose context is [ctx], and returns
    the worker's answer, or its error under the operation's name. *)
Lemma exec_result choice ctx σ held :
  pool_inv (σ, held) ->
  ∃ p, Context p = ctx
       ∧ (exec Exec Unmarshal choice ctx σ).1
         = match worker_answer Exec Unmarshal p with
           | inl val => (Some val, None)
           | inr err => (None, Some (E (Some "exec") err))
           end.
Proof.
  intros Hinv. pose proof (getPld_allocated choice σ held Hinv) as [p0 Hp0].
  unfold exec, bind. destruct (getPld choice σ) as [pd σ1]. simpl in Hp0.
  unfold modify, emit, modify, get, ret. simpl.
  exists {| Context := ctx; Body_ := Body_ p0 |}. split; [done|].
  rewrite lookup_total_alter, decide_True by done. rewrite Hp0. simpl.
  unfold worker_answer.
  destruct (Exec _) as [rsp|err]; [destruct (Unmarshal _ _)|]; done.
Qed.

Lemma pool_inv_logged events σ held :
  pool_inv (σ, held) -> pool_inv (logged events σ, held).
Proof. intros H. eapply pool_inv_step; [exact H|]. by apply step_other. Qed.

Hypothesis attr_order_valid : iteration_order attr_order.

(** C10: the default validator serializes the request (with the marker of
    its mode) and hands it to the worker. When the call of the worker or the
    decoding of its answer fails, it returns no result and an error, in
    both modes. When the worker answers with status 200, it returns the
    answer and no error. When the worker answers with another status, it
    returns the answer, with an error in topic mode (some topic given) and
    without an error in server mode (no topic). *)
Theorem defaultAccessValidator_denial
    (choice : option nat) (r : http.Request) (topics : list string)
    (σ : World) (held : list loc) (Hinv : pool_inv (σ, held)) :
  ∃ data p,
    (if bool_decide (topics = [])
     then (ServerAccessValidator WriteString header_order attr_order
             (attributes.Init r)).1
     else (TopicsAccessValidator WriteString header_order attr_order
             (attributes.Init r) topics).1) = (Some data, None)
    ∧ Context p = list_byte_of_string data
    ∧ let '(val, err) :=
        (defaultAccessValidator Exec Unmarshal WriteString header_order attr_order
           choice r topics σ).1 in
      match worker_answer Exec Unmarshal p with
      | inr _ => val = None ∧ is_Some err
      | inl v =>
          val = Some v
          ∧ (Status v = StatusOK -> err = None)
          ∧ (Status v ≠ StatusOK ->
             if bool_decide (topics = []) then err = None else is_Some err)
      end.
Proof.
  unfold defaultAccessValidator, bind. rewrite emit_logged. cbv beta iota.
  pose proof (pool_inv_logged [Log Debug "validation"] σ held Hinv) as Hinv'.
  destruct topics as [|t topics].
  - rewrite !bool_decide_true by done. cbv beta iota.
    destruct (SAV_Init WriteString header_order attr_order attr_order_valid r)
      as [data Hd].
    destruct (ServerAccessValidator _ _ _ (attributes.Init r)) as [[ctx err] r'].
    simpl in Hd. injection Hd as -> ->.
    destruct (exec_result choice (bytes_of (Some data)) _ held Hinv')
      as (p & Hp & Hres).
    exists data, p. split; [done|]. split; [done|].
    destruct (exec Exec Unmarshal choice (bytes_of (Some data))
                (logged [Log Debug "validation"] σ)) as [[val err] σ'].
    simpl in Hres.
    destruct (worker_answer Exec Unmarshal p) as [v|e]; injection Hres as -> ->; simpl.
    + done.
    + split; [done|eauto].
  - rewrite !bool_decide_false by done. cbv beta iota.
    destruct (TAV_Init WriteString header_order attr_order attr_order_valid r
                (t :: topics)) as [data Hd].
    destruct (TopicsAccessValidator _ _ _ (attributes.Init r) _) as [[ctx err] r'].
    simpl in Hd. injection Hd as -> ->.
    destruct (exec_result choice (bytes_of (Some data)) _ held Hinv')
      as (p & Hp & Hres).
    exists data, p. split; [done|]. split; [done|].
    destruct (exec Exec Unmarshal choice (bytes_of (Some data))
                (logged [Log Debug "validation"] σ)) as [[val err] σ'].
    simpl in Hres.
    destruct (worker_answer Exec Unmarshal p) as [v|e]; injection Hres as -> ->; simpl.
    + case_bool_decide; simpl; [|split; [done|]; split; [done|by intros []]].
      split; [done|]. split; [done|eauto].
    + split; [done|eauto].
Qed.

End DefaultValidator.

Lemma defaultAccessValidator_denial_witness :
  is_Some (websockets.defaultAccessValidator empty_Exec (status_of 403) json.quote
             map_to_list map_to_list None sample_request ["news"]
             websockets.init).1.2.
Proof.
  destruct (defaultAccessValidator_denial empty_Exec (status_of 403) json.quote
              map_to_list map_to_list (λ m, reflexivity _)
              None sample_request ["news"] websockets.init [] pool_inv_init)
    as (data & p & _ & _ & H).
  destruct (websockets.defaultAccessValidator _ _ _ _ _ _ _ _ _).1 as [val err].
  simpl in H. destruct H as (_ & _ & H). by apply H.
Defined.

(** ** The handler *)

Section Handler.

Variable cfg : Config.
Variable isOriginAllowed : string -> Config -> bool.
Variable canon : string -> string.
Variable range_order : gmap string (list string) -> list (string * list string).
Variable accessValidator : http.Request -> list string -> M (result AccessValidator).
Variable a : Answers.
Variable r : http.Request.

Lemma Middleware_handle σ :
  (Middleware cfg isOriginAllowed canon range_order accessValidator a r σ).2
  = logged (span_close r)
      (handle cfg isOriginAllowed canon range_order accessValidator a r
         (logged (span_open r) σ)).2.
Proof.
  unfold Middleware, span_open, span_close. destruct (OtelTracerName r); simpl.
  - unfold bind. rewrite emit_logged. by destruct (handle _ _ _ _ _ _ _ _).
  - by rewrite !logged_nil.
Qed.

Lemma Values_Add w k x K :
  Values (Add canon w k x) K
  = Values w K ++ (if decide (canon k = K) then [x] else []).
Proof.
  unfold Values, Add. destruct (decide (canon k = K)) as [<-|Hne].
  - by rewrite lookup_insert_eq.
  - rewrite lookup_insert_ne by done. by rewrite app_nil_r.
Qed.

Lemma Values_fold_Add w k vs K :
  Values (foldl (λ w x, Add canon w k x) w vs) K
  = Values w K ++ (if decide (canon k = K) then vs else []).
Proof.
  revert w. induction vs as [|v vs IH]; intros w; simpl.
  - destruct (decide _); by rewrite app_nil_r.
  - rewrite IH, Values_Add. destruct (decide _); by rewrite <- app_assoc.
Qed.

Lemma Values_propagated entries w K :
  Values (propagated canon entries w) K
  = Values w K
    ++ mjoin ((λ '(k, vs), if decide (canon k = K) then vs else []) <$> entries).
Proof.
  unfold propagated. revert w. induction entries as [|[k vs] entries IH];
    intros w; simpl.
  - by rewrite app_nil_r.
  - rewrite IH, Values_fold_Add. by rewrite <- app_assoc.
Qed.

Lemma handle_not_allowed σ :
  URL_Path r = Path cfg ->
  isOriginAllowed (Get canon (http.Header r) OriginHeaderKey) cfg = false ->
  (handle cfg isOriginAllowed canon range_order accessValidator a r σ).2
  = logged [RLock; WriteHeader StatusMethodNotAllowed] σ.
Proof.
  intros Hpath Horigin. unfold handle.
  rewrite bool_decide_false by (by intros ?). rewrite Horigin. simpl.
  apply (logged_logged [RLock] [WriteHeader StatusMethodNotAllowed] σ).
Qed.

Lemma handle_validated σ res σ1 :
  URL_Path r = Path cfg ->
  isOriginAllowed (Get canon (http.Header r) OriginHeaderKey) cfg = true ->
  accessValidator r [] (logged [RLock] σ) = (res, σ1) ->
  (handle cfg isOriginAllowed canon range_order accessValidator a r σ).2
  = (match res with
     | (_, Some _) => emit (WriteHeader StatusBadRequest)
     | (None, None) => emit Panic
     | (Some val, None) =>
         if bool_decide (Status val ≠ StatusOK) then
           propagate_headers canon range_order (Header val);;
           emit (WriteHeader (Status val));;
           emit (Write (Body val))
         else
           emit UpgradeHTTP;;
           match upgrade_err a with
           | Some _ => emit (Log Error "upgrade connection")
           | None =>
               modify (set_connections (λ c, {[new_uuid a]} ∪ c));;
               emit (NewExecutor (new_uuid a));;
               emit (Log Debug "websocket client connected");;
               emit (StartCommandLoop (new_uuid a));;
               match loop_err a with
               | Some _ => emit (Log Error "command loop error, disconnecting")
               | None =>
                   modify (set_connections (λ c, c ∖ {[new_uuid a]}));;
                   emit (CleanUp (new_uuid a));;
                   emit BodyClose;;
                   log_if_error "body close" (body_close_err a);;
                   emit (ConnClose (new_uuid a));;
                   log_if_error "connection close" (conn_close_err a);;
                   emit (Log Debug "disconnected")
               end
           end
     end (logged [RUnlock] σ1)).2.
Proof.
  intros Hpath Horigin Hval. unfold handle.
  rewrite bool_decide_false by (by intros ?). rewrite Horigin. simpl negb.
  cbv iota. unfold bind at 1. rewrite emit_logged. unfold bind at 1.
  rewrite Hval. destruct res as [val err]. unfold bind at 1.
  rewrite emit_logged. by destruct err, val.
Qed.

Lemma propagate_headers_state h σ :
  (propagate_headers canon range_order h σ).2
  = set_w_Header (propagated canon (range_order h)) σ.
Proof. reflexivity. Qed.

(** The state after the three calls on the response writer that deny. *)
Lemma deny_state (val : AccessValidator) σ :
  ((propagate_headers canon range_order (Header val);;
    emit (WriteHeader (Status val));;
    emit (Write (Body val))) σ).2
  = logged [WriteHeader (Status val); Write (Body val)]
      (set_w_Header (propagated canon (range_order (Header val))) σ).
Proof.
  unfold bind. destruct σ. unfold propagate_headers, modify, emit, modify, logged,
    set_trace, set_w_Header. simpl. by rewrite <- app_assoc.
Qed.

(** C4: on the configured path, with an allowed origin, when the validator
    returns a response (and no error) whose status is not 200, the handler
    adds every value of every header of that response to the response
    headers (under the canonical key, after what was there, and nothing
    else), writes the status of the response, writes its body, and returns:
    after the validator it releases the lock and calls the response writer,
    nothing else; it does not upgrade, store a connection or start an
    executor. *)
Theorem Middleware_denied (σ σ1 : World) (val : AccessValidator)
    (Horder : iteration_order range_order)
    (Hpath : URL_Path r = Path cfg)
    (Horigin : isOriginAllowed (Get canon (http.Header r) OriginHeaderKey) cfg = true)
    (Hval : accessValidator r [] (logged (span_open r ++ [RLock]) σ)
            = ((Some val, None), σ1))
    (Hdeny : Status val ≠ StatusOK) :
  let σ' := (Middleware cfg isOriginAllowed canon range_order accessValidator a r σ).2 in
  trace σ'
    = trace σ1 ++ [RUnlock; WriteHeader (Status val); Write (Body val)]
      ++ span_close r
  ∧ connections σ' = connections σ1
  ∧ (∀ k vs v, Header val !! k = Some vs -> v ∈ vs ->
               v ∈ Values (w_Header σ') (canon k))
  ∧ (∀ K v, v ∈ Values (w_Header σ') K ->
            v ∈ Values (w_Header σ1) K
            ∨ ∃ k vs, Header val !! k = Some vs ∧ canon k = K ∧ v ∈ vs).
Proof.
  intros σ'. subst σ'. rewrite Middleware_handle.
  rewrite <- logged_logged in Hval.
  rewrite (handle_validated _ _ _ Hpath Horigin Hval).
  rewrite bool_decide_true by done. rewrite deny_state.
  destruct σ1 as [hp pl cs wh tr]. unfold logged, set_trace, set_w_Header. simpl.
  split; [by rewrite <- !app_assoc|]. split; [done|].
  split.
  - intros k vs v Hk Hv. rewrite Values_propagated. apply elem_of_app. right.
    apply list_elem_of_join. exists vs. split; [done|].
    apply list_elem_of_fmap. exists (k, vs). rewrite decide_True by done.
    split; [done|]. rewrite Horder. by apply elem_of_map_to_list.
  - intros K v. rewrite Values_propagated.
    intros [Hold|Hnew]%elem_of_app; [by left|]. right.
    apply list_elem_of_join in Hnew as (l & Hv & Hl).
    apply list_elem_of_fmap in Hl as ([k vs] & -> & Hin).
    destruct (decide (canon k = K)) as [HK|_]; [|by apply elem_of_nil in Hv].
    exists k, vs. split; [|done].
    apply elem_of_map_to_list. by rewrite <- Horder.
Qed.

(** Runs a piece of the handler on a state, and reads off its trace. *)
Ltac run_handler :=
  intros [];
  cbv [bind emit modify ret log_if_error logged set_trace set_connections
       set_w_Header heap pldPool connections w_Header trace snd];
  rewrite <- ?app_assoc; cbn [app]; reflexivity.

Lemma acquired_app t1 t2 : acquired (t1 ++ t2) = acquired t1 + acquired t2.
Proof. unfold acquired. by rewrite List.filter_app, length_app. Qed.

Lemma released_locks_app t1 t2 :
  released_locks (t1 ++ t2) = released_locks t1 + released_locks t2.
Proof. unfold released_locks. by rewrite List.filter_app, length_app. Qed.

Lemma acquired_span_open : acquired (span_open r) = 0.
Proof. unfold span_open. by destruct (OtelTracerName r). Qed.

Lemma acquired_span_close : acquired (span_close r) = 0.
Proof. unfold span_close. by destruct (OtelTracerName r). Qed.

Lemma released_locks_span_open : released_locks (span_open r) = 0.
Proof. unfold span_open. by destruct (OtelTracerName r). Qed.

Lemma released_locks_span_close : released_locks (span_close r) = 0.
Proof. unfold span_close. by destruct (OtelTracerName r). Qed.

(** On the configured path, a request whose origin is not allowed leaves the
    handler with the read lock taken once more than it is given back. *)
Lemma Middleware_origin_mismatch σ :
  URL_Path r = Path cfg ->
  isOriginAllowed (Get canon (http.Header r) OriginHeaderKey) cfg = false ->
  let σ' := (Middleware cfg isOriginAllowed canon range_order accessValidator a r σ).2 in
  trace σ'
    = trace σ ++ span_open r ++ [RLock; WriteHeader StatusMethodNotAllowed]
      ++ span_close r
  ∧ acquired (trace σ') = S (acquired (trace σ))
  ∧ released_locks (trace σ') = released_locks (trace σ).
Proof.
  intros Hpath Horigin σ'. subst σ'. rewrite Middleware_handle.
  rewrite (handle_not_allowed _ Hpath Horigin).
  assert (∀ e1 e2 e3, trace (logged e3 (logged e2 (logged e1 σ)))
                      = trace σ ++ e1 ++ e2 ++ e3) as ->.
  { intros. destruct σ. simpl. by rewrite <- !app_assoc. }
  split; [done|].
  rewrite !acquired_app, !released_locks_app, acquired_span_open,
    acquired_span_close, released_locks_span_open, released_locks_span_close.
  simpl. split; lia.
Qed.

(** On the configured path, a request whose origin is allowed leaves the
    handler with the read lock given back: after the validator the handler
    gives the lock back once and does not take it again, whatever the
    validator returns and whatever happens to the connection. *)
Lemma Middleware_unlocks_after_validator σ res σ1 :
  URL_Path r = Path cfg ->
  isOriginAllowed (Get canon (http.Header r) OriginHeaderKey) cfg = true ->
  accessValidator r [] (logged (span_open r ++ [RLock]) σ) = (res, σ1) ->
  let σ' := (Middleware cfg isOriginAllowed canon range_order accessValidator a r σ).2 in
  ∃ tail, trace σ' = trace σ1 ++ tail
          ∧ acquired tail = 0 ∧ released_locks tail = 1.
Proof.
  intros Hpath Horigin Hval σ'. subst σ'. rewrite Middleware_handle.
  rewrite <- logged_logged in Hval.
  rewrite (handle_validated _ _ _ Hpath Horigin Hval).
  assert (∀ (m : M unit) events,
            (∀ σ0, (m σ0).2 = set_w_Header (λ _, w_Header (m σ0).2)
                                (set_connections (λ _, connections (m σ0).2)
                                   (logged events σ0))) ->
            acquired events = 0 -> released_locks events = 0 ->
            ∃ tail, trace (logged (span_close r) (m (logged [RUnlock] σ1)).2)
                    = trace σ1 ++ tail
                    ∧ acquired tail = 0 ∧ released_locks tail = 1) as Hshape.
  { intros m events Hm Ha Hr. exists ([RUnlock] ++ events ++ span_close r).
    rewrite (Hm (logged [RUnlock] σ1)). destruct σ1. simpl.
    rewrite <- !app_assoc. split; [done|].
    change (RUnlock :: events ++ span_close r)
      with ([RUnlock] ++ events ++ span_close r).
    rewrite !acquired_app, !released_locks_app, Ha, Hr, acquired_span_close,
      released_locks_span_close. done. }
  destruct res as [[val|] [err|]].
  - by apply (Hshape _ [WriteHeader StatusBadRequest]); [intros []|..].
  - case_bool_decide.
    + eapply (Hshape _ [WriteHeader (Status val); Write (Body val)]); [|done..].
      intros σ0. rewrite deny_state. by destruct σ0.
    + destruct (upgrade_err a) as [e|].
      { by apply (Hshape _ [UpgradeHTTP; Log Error "upgrade connection"]);
          [run_handler|..]. }
      destruct (loop_err a) as [e|].
      { by eapply (Hshape _ [UpgradeHTTP; NewExecutor _; Log Debug _;
                              StartCommandLoop _; Log Error _]);
          [run_handler|..]. }
      destruct (body_close_err a), (conn_close_err a);
        (eapply (Hshape _ _); [run_handler|done..]).
  - by apply (Hshape _ [WriteHeader StatusBadRequest]); [intros []|..].
  - by apply (Hshape _ [Panic]); [intros []|..].
Qed.

(** What the handler does after an admitted request has been upgraded and
    its command loop has returned: with [nil], the connection is deleted
    from the registry, [CleanUp] runs, the body and the connection are
    closed; with an error, the handler logs and returns, the connection
    stays in the registry and nothing is cleaned up or closed. *)
Lemma Middleware_loop_exit σ σ1 (val : AccessValidator) :
  URL_Path r = Path cfg ->
  isOriginAllowed (Get canon (http.Header r) OriginHeaderKey) cfg = true ->
  accessValidator r [] (logged (span_open r ++ [RLock]) σ) = ((Some val, None), σ1) ->
  Status val = StatusOK ->
  upgrade_err a = None ->
  let σ' := (Middleware cfg isOriginAllowed canon range_order accessValidator a r σ).2 in
  let id := new_uuid a in
  match loop_err a with
  | Some _ =>
      trace σ'
        = trace σ1
          ++ [RUnlock; UpgradeHTTP; NewExecutor id;
              Log Debug "websocket client connected"; StartCommandLoop id;
              Log Error "command loop error, disconnecting"]
          ++ span_close r
      ∧ connections σ' = {[id]} ∪ connections σ1
  | None =>
      trace σ'
        = trace σ1
          ++ [RUnlock; UpgradeHTTP; NewExecutor id;
              Log Debug "websocket client connected"; StartCommandLoop id;
              CleanUp id; BodyClose]
          ++ match body_close_err a with
             | Some _ => [Log Error "body close"]
             | None => []
             end
          ++ [ConnClose id]
          ++ match conn_close_err a with
             | Some _ => [Log Error "connection close"]
             | None => []
             end
          ++ [Log Debug "disconnected"]
          ++ span_close r
      ∧ connections σ' = ({[id]} ∪ connections σ1) ∖ {[id]}
  end.
Proof.
  intros Hpath Horigin Hval Hok Hup σ' id. subst σ' id.
  rewrite Middleware_handle. rewrite <- logged_logged in Hval.
  rewrite (handle_validated _ _ _ Hpath Horigin Hval).
  rewrite bool_decide_false by (by intros ?). rewrite Hup.
  destruct σ1 as [hp pl cs wh tr].
  destruct (loop_err a), (body_close_err a), (conn_close_err a);
    cbv [bind emit modify ret log_if_error logged set_trace set_connections
         set_w_Header trace connections snd];
    rewrite <- ?app_assoc; cbn [app]; split; reflexivity.
Qed.

End Handler.

(** *** The handler on concrete requests *)

Lemma Middleware_denied_witness :
  "banned"
  ∈ Values (websockets.w_Header
              (websockets.Middleware sample_cfg on_the_list id map_to_list refuse
                 loop_ends sample_request websockets.init).2) "X-Reason".
Proof.
  refine (proj1 (proj2 (proj2
            (Middleware_denied sample_cfg on_the_list id map_to_list refuse
               loop_ends sample_request websockets.init _ refused
               (λ m, reflexivity _) eq_refl eq_refl eq_refl _)))
            "X-Reason" ["banned"] "banned" _ _).
  - discriminate.
  - reflexivity.
  - apply list_elem_of_here.
Defined.

Example denied_trace :
  websockets.trace
    (websockets.Middleware sample_cfg on_the_list id map_to_list (worker 403)
       loop_ends sample_request websockets.init).2
  = [websockets.RLock; websockets.Log websockets.Debug "validation";
     websockets.RLock; websockets.RUnlock; websockets.RUnlock;
     websockets.WriteHeader 403; websockets.Write []].
Proof. reflexivity. Qed.

Section Scenarios.

(** C1 (the code departs from the claim): a request is admitted and
    upgraded, and its command loop returns an error. The handler logs the
    error and returns: the connection is still in the registry, and neither
    [CleanUp] nor the closing of the body or of the connection has run.
    When the loop returns [nil], on the same request, all four happen. *)
Theorem Middleware_loop_error_skips_cleanup :
  let failed :=
    (Middleware sample_cfg on_the_list id map_to_list (worker 200)
       loop_fails sample_request init).2 in
  let ended :=
    (Middleware sample_cfg on_the_list id map_to_list (worker 200)
       loop_ends sample_request init).2 in
  trace failed
    = [RLock; Log Debug "validation"; RLock; RUnlock; RUnlock;
       UpgradeHTTP; NewExecutor "5e2f"; Log Debug "websocket client connected";
       StartCommandLoop "5e2f";
       Log Error "command loop error, disconnecting"]
  ∧ connections failed = {[ "5e2f" ]}
  ∧ trace ended
    = [RLock; Log Debug "validation"; RLock; RUnlock; RUnlock;
       UpgradeHTTP; NewExecutor "5e2f"; Log Debug "websocket client connected";
       StartCommandLoop "5e2f";
       CleanUp "5e2f"; BodyClose; ConnClose "5e2f"; Log Debug "disconnected"]
  ∧ connections ended = ∅.
Proof. repeat split. Qed.

(** C2 (the code departs from the claim): a request on the configured path
    whose origin is not on the list. The handler takes the read lock,
    answers 405 and returns; it has not given the lock back. On the same
    path with an allowed origin, the lock is given back as often as it is
    taken, whether the worker admits or denies. *)
Theorem Middleware_origin_mismatch_keeps_lock :
  let mismatch :=
    trace (Middleware sample_cfg on_the_list id map_to_list (worker 200)
             loop_ends evil_request init).2 in
  let admitted :=
    trace (Middleware sample_cfg on_the_list id map_to_list (worker 200)
             loop_ends sample_request init).2 in
  let denied :=
    trace (Middleware sample_cfg on_the_list id map_to_list (worker 403)
             loop_ends sample_request init).2 in
  mismatch = [RLock; WriteHeader http.StatusMethodNotAllowed]
  ∧ acquired mismatch = 1 ∧ released_locks mismatch = 0
  ∧ acquired admitted = 2 ∧ released_locks admitted = 2
  ∧ acquired denied = 2 ∧ released_locks denied = 2.
Proof. repeat split. Qed.

End Scenarios.

(** * Further properties of the code *)

(** ** [FetchIP], read backwards *)

Section SliceFacts.

Implicit Types (s t : string) (c a : ascii).

Lemma slice_split n s : s = slice_to n s +:+ slice_from n s.
Proof.
  revert s. induction n as [|n IH]; intros [|a s]; simpl; try done.
  by rewrite <- IH.
Qed.

Lemma free_of_app_inv s t c : free_of c (s +:+ t) -> free_of c s ∧ free_of c t.
Proof.
  unfold free_of. induction s as [|a s IH]; simpl; [done|].
  destruct (Ascii.eqb a c); [done|].
  destruct (IndexByte (s +:+ t) c) eqn:Hst; [done|]. intros _.
  destruct (IH eq_refl) as [-> Ht]. done.
Qed.

Lemma free_of_cons_inv a s c : free_of c (String a s) -> a ≠ c ∧ free_of c s.
Proof.
  unfold free_of. simpl. destruct (Ascii.eqb_spec a c); [done|].
  by destruct (IndexByte s c).
Qed.

(** At the first index of [c]: nothing but [c]-free bytes before, [c] at
    the index. *)
Lemma IndexByte_Some s c e :
  IndexByte s c = Some e ->
  free_of c (slice_to e s) ∧ slice_from e s = String c (slice_from (S e) s).
Proof.
  revert e. induction s as [|a s IH]; intros e; simpl; [done|].
  destruct (Ascii.eqb_spec a c) as [->|Hne].
  - by intros [= <-].
  - destruct (IndexByte s c) as [e'|] eqn:He'; [|done]. intros [= <-].
    destruct (IH e' eq_refl) as [Hfree Hfrom]. split; [|done].
    simpl. by apply free_of_cons.
Qed.

(** At the last index of [c]: [c] at the index, nothing but [c]-free bytes
    after. *)
Lemma LastIndexByte_Some s c i :
  LastIndexByte s c = Some i ->
  slice_from i s = String c (slice_from (S i) s) ∧ free_of c (slice_from (S i) s).
Proof.
  revert i. induction s as [|a s IH]; intros i; simpl; [done|].
  destruct (LastIndexByte s c) as [i'|] eqn:Hi'.
  - intros [= <-]. by apply IH.
  - destruct (Ascii.eqb_spec a c) as [->|Hne]; [|done]. intros [= <-].
    split; [done|]. simpl. clear IH.
    induction s as [|b s IHs]; [done|]. simpl in Hi'.
    destruct (LastIndexByte s c); [done|].
    destruct (Ascii.eqb_spec b c); [done|]. apply free_of_cons; [done|].
    by apply IHs.
Qed.

Lemma slice_from_S n s a t :
  slice_from n s = String a t -> slice_from (S n) s = t.
Proof.
  revert s. induction n as [|n IH]; intros [|b s]; simpl; try done.
  - by intros [= _ ->].
  - apply IH.
Qed.

End SliceFacts.

(** X3: what [FetchIP] returns tells how the input was built. An input
    without a colon comes back as it is. Any other input either does not
    parse, and the result is empty, or is the result, a colon and a port
    (all free of colons and brackets), or is the result in brackets (itself
    free of brackets), a colon and a port. *)
Theorem FetchIP_inversion (pair : string) :
  (ContainsRune pair ":" = false ∧ FetchIP pair = pair)
  ∨ (ContainsRune pair ":" = true
     ∧ (((Net.SplitHostPort pair).2 ≠ None ∧ FetchIP pair = "")
        ∨ ∃ port, plain port
            ∧ ((plain (FetchIP pair) ∧ pair = FetchIP pair +:+ ":" +:+ port)
               ∨ (free_of "[" (FetchIP pair) ∧ free_of "]" (FetchIP pair)
                  ∧ pair = "[" +:+ FetchIP pair +:+ "]:" +:+ port)))).
Proof.
  unfold FetchIP. destruct (ContainsRune pair ":") eqn:Hc; simpl; [right|by left].
  split; [done|]. unfold Net.SplitHostPort.
  destruct (LastIndexByte pair ":") as [i|] eqn:Hi; [|left; by split].
  destruct (LastIndexByte_Some _ _ _ Hi) as [Hat Hport].
  set (port := slice_from (S i) pair) in *.
  assert (pair = slice_to i pair +:+ String ":" port) as Hpair.
  { rewrite <- Hat. apply slice_split. }
  replace (i + 1) with (S i) by lia. fold port.
  destruct pair as [|b0 rest] eqn:Hb; [done|]. rewrite <- Hb in *.
  assert (byte_at 0 pair = Some b0) as -> by (by rewrite Hb).
  destruct (Ascii.eqb_spec b0 "[") as [->|Hnb].
  - (* a host in brackets *)
    destruct (IndexByte pair "]") as [e|] eqn:He; [|left; by split].
    destruct (Nat.eqb_spec (e + 1) (String.length pair)); [left; by split|].
    destruct (Nat.eqb_spec (e + 1) i) as [Hei|Hei].
    2:{ left. destruct (byte_at (e + 1) pair) as [c|]; [|by split].
        destruct (Ascii.eqb c ":"); by split. }
    destruct (IndexByte (slice_from 1 pair) "[") eqn:Hopen; [left; by split|].
    destruct (IndexByte (slice_from (e + 1) pair) "]") eqn:Hclose;
      [left; by split|].
    right. exists port. simpl.
    destruct (IndexByte_Some _ _ _ He) as [Hbefore Hate].
    assert (e ≠ 0) as He0.
    { intros ->. rewrite Hb, IndexByte_cons_ne in He by done.
      by destruct (IndexByte rest "]"). }
    destruct e as [|e]; [done|].
    assert (i = S (S e)) as -> by lia.
    assert (slice_from 1 pair = rest) as Hrest by (by rewrite Hb).
    assert (slice_from (S e) pair = slice_from e rest) as Hfe by (by rewrite Hb).
    assert (slice_from (S (S e)) pair = String ":" port) as Hcolon by exact Hat.
    assert (rest = slice_to e rest +:+ "]:" +:+ port) as Hshape.
    { rewrite (slice_split e rest) at 1. f_equal. rewrite <- Hfe, Hate.
      by rewrite Hcolon. }
    assert (slice 1 (S e) pair = slice_to e rest) as ->.
    { unfold slice. rewrite Hrest. f_equal. lia. }
    rewrite Hrest in Hopen.
    assert (free_of "[" (slice_to e rest) ∧ free_of "[" port) as [Ho1 Ho2].
    { unfold free_of in *. rewrite Hshape in Hopen.
      apply free_of_app_inv in Hopen as [? Hopen]. split; [done|].
      apply (free_of_app_inv "]:") in Hopen as [_ ?]. done. }
    assert (free_of "]" (slice_to e rest)) as Hc1.
    { rewrite Hb in Hbefore. simpl in Hbefore.
      by apply free_of_cons_inv in Hbefore as [_ ?]. }
    assert (free_of "]" port) as Hc2.
    { replace (S e + 1) with (S (S e)) in Hclose by lia.
      rewrite Hcolon in Hclose. by apply free_of_cons_inv in Hclose as [_ ?]. }
    split; [done|]. right. split; [done|]. split; [done|].
    rewrite Hb at 1. simpl. f_equal. exact Hshape.
  - (* a host without brackets *)
    destruct (IndexByte (slice_to i pair) ":") eqn:Hhost; [left; by split|].
    simpl slice_from.
    destruct (IndexByte pair "[") eqn:Hopen; [left; by split|].
    destruct (IndexByte pair "]") eqn:Hclose; [left; by split|].
    right. exists port. simpl.
    assert (∀ c, free_of c pair -> c ≠ ":"%char ->
                 free_of c (slice_to i pair) ∧ free_of c port) as Hfree.
    { intros c Hf Hne. rewrite Hpair in Hf.
      apply free_of_app_inv in Hf as [? Hf]. split; [done|].
      by apply free_of_cons_inv in Hf as [_ ?]. }
    destruct (Hfree "["%char Hopen) as [??]; [done|].
    destruct (Hfree "]"%char Hclose) as [??]; [done|].
    split; [done|]. left. split; [done|]. exact Hpair.
Qed.

(** ** Line breaks in the serialized request *)

Section ReplaceAllFacts.

Implicit Types (s : string) (c d : ascii).

Lemma ReplaceAll_free s c : free_of c (ReplaceAll s c "").
Proof.
  induction s as [|a s IH]; simpl; [done|].
  destruct (Ascii.eqb_spec a c); [done|]. by apply free_of_cons.
Qed.

Lemma ReplaceAll_keeps_free s c d : free_of d s -> free_of d (ReplaceAll s c "").
Proof.
  induction s as [|a s IH]; simpl; [done|].
  intros [Hne Hs]%free_of_cons_inv.
  destruct (Ascii.eqb a c); [by apply IH|]. apply free_of_cons; [done|by apply IH].
Qed.

Lemma ReplaceAll_id s c : free_of c s -> ReplaceAll s c "" = s.
Proof.
  induction s as [|a s IH]; simpl; [done|].
  intros [Hne Hs]%free_of_cons_inv.
  destruct (Ascii.eqb_spec a c); [done|]. by rewrite IH.
Qed.

Lemma one_line_clean s : one_line (ReplaceAll (ReplaceAll s LF "") CR "").
Proof.
  split; [|apply ReplaceAll_free]. apply ReplaceAll_keeps_free, ReplaceAll_free.
Qed.

End ReplaceAllFacts.

(** X1: whatever the query string of the request, the [RawQuery] that the
    worker sees has no line feed and no carriage return; and a query string
    that has neither reaches the worker as it is. *)
Theorem RawQuery_one_line (r : http.Request) :
  one_line (RawQuery (newRequest r))
  ∧ (one_line (URL_RawQuery r) -> RawQuery (newRequest r) = URL_RawQuery r).
Proof.
  split; [apply one_line_clean|]. intros [Hlf Hcr]. simpl.
  fold LF CR. rewrite (ReplaceAll_id _ LF) by done. by apply ReplaceAll_id.
Qed.

Lemma RawQuery_one_line_witness :
  RawQuery (newRequest sample_request) = "room=1".
Proof.
  apply (proj2 (RawQuery_one_line sample_request)). by split.
Defined.

(** X2: the URI that the worker sees has a line feed (a carriage return)
    exactly when the URL of the request has no host of its own and the
    [Host] of the request has one: the URL is cleaned, the host that is put
    in front of it is not. Without a host in the URL, the URI is the
    scheme ([https] exactly when the connection is TLS), the [Host] and the
    cleaned URL. *)
Theorem URI_line_breaks (r : http.Request) (c : ascii) (Hc : c = LF ∨ c = CR) :
  (free_of c (URI r) <-> URL_Host r ≠ "" ∨ free_of c (Host r))
  ∧ (URL_Host r = "" ->
     URI r = (if TLS r then "https://" else "http://") +:+ Host r
             +:+ ReplaceAll (ReplaceAll (URL_String r) LF "") CR "").
Proof.
  assert (free_of c (ReplaceAll (ReplaceAll (URL_String r) LF "") CR "")) as Hclean.
  { destruct (one_line_clean (URL_String r)) as [??]. by destruct Hc as [->| ->]. }
  assert (∀ scheme, free_of c scheme ->
            free_of c (scheme +:+ Host r
                       +:+ ReplaceAll (ReplaceAll (URL_String r) LF "") CR "")
            <-> free_of c (Host r)) as Happ.
  { intros scheme Hs. split.
    - intros [_ [? _]%free_of_app_inv]%free_of_app_inv. done.
    - intros Hh. by repeat apply free_of_app. }
  assert (free_of c "https://" ∧ free_of c "http://") as [Hs1 Hs2].
  { by destruct Hc as [->| ->]. }
  unfold URI. fold LF CR. case_bool_decide as Hhost.
  - split; [|done]. split; [by left|done].
  - split.
    + destruct (TLS r); rewrite Happ by done;
        (split; [by right|by intros [?|?]]).
    + intros _. by destruct (TLS r).
Qed.

Lemma URI_line_breaks_witness :
  free_of LF (URI sample_request)
  ∧ URI sample_request = "http://example.org/ws?room=1".
Proof.
  destruct (URI_line_breaks sample_request LF (or_introl eq_refl)) as [H1 H2].
  split; [apply H1; by right|]. by rewrite H2.
Defined.

(** ** The validators and the bag *)

Section ValidatorMore.

Variable WriteString : string -> string.
Variable header_order : gmap string (list string) -> list (string * list string).
Variable attr_order : gmap string AttrValue -> list (string * AttrValue).

#[local] Abbreviation SAV := (ServerAccessValidator WriteString header_order attr_order).
#[local] Abbreviation TAV := (TopicsAccessValidator WriteString header_order attr_order).
#[local] Abbreviation Marshal' := (Marshal WriteString header_order attr_order).

Lemma with_attrs_same (r : http.Request) : with_attrs r (attrs r) = r.
Proof. by destruct r. Qed.

Lemma delete_invisible (r : http.Request) key bag :
  attrs r = Some bag ->
  with_attrs r (Some (delete key bag)) = r <-> attributes.All r !! key = None.
Proof.
  intros Hbag. unfold attributes.All. rewrite Hbag. simpl. split.
  - intros H. apply (f_equal attrs) in H. simpl in H. rewrite Hbag in H.
    injection H as H. rewrite <- H. apply lookup_delete_eq.
  - intros H. rewrite delete_id by done. by rewrite <- Hbag, with_attrs_same.
Qed.

(** X4: a call of a validator leaves the request exactly as it found it if
    and only if the bag had no entry under the marker's key before the
    call; an entry that a caller had stored under that key is lost. *)
Theorem validator_invisible (r : http.Request) (topics : list string) :
  ((SAV r).2 = r <-> attributes.All r !! joinServer = None)
  ∧ ((TAV r topics).2 = r <-> attributes.All r !! joinTopics = None).
Proof.
  destruct (attrs r) as [bag|] eqn:Hbag.
  - rewrite (SAV_bag _ _ _ r bag Hbag), (TAV_bag _ _ _ r topics bag Hbag). simpl.
    split; by apply delete_invisible.
  - destruct (SAV_no_bag WriteString header_order attr_order r Hbag) as [-> _].
    destruct (TAV_no_bag WriteString header_order attr_order r topics Hbag)
      as [-> _].
    unfold attributes.All. rewrite Hbag. simpl. by split.
Qed.

Hypothesis attr_order_valid : iteration_order attr_order.

Lemma Marshal_Some_iff req :
  (∃ data, Marshal' req = (Some data, None))
  <-> ∀ k v, Attributes req !! k = Some v -> is_Some (json.EncodeValue WriteString v).
Proof.
  split; [|by apply Marshal_total].
  intros [data Hd] k v Hk. unfold Marshal, json.EncodeAttributes in Hd.
  destruct (mapM _ (attr_order (Attributes req))) as [ms|] eqn:Hms; [|done].
  assert ((k, v) ∈ attr_order (Attributes req)) as Hin.
  { rewrite (attr_order_valid (Attributes req)). by apply elem_of_map_to_list. }
  destruct (mapM_elem_of _ _ _ _ Hms Hin) as (y & Hy & _). simpl in Hy.
  destruct (json.EncodeValue WriteString v); [eauto|done].
Qed.

Lemma Marshal_exactly_one op req : exactly_one (wrap op (Marshal' req)).
Proof.
  unfold Marshal. by destruct (json.EncodeAttributes _ _).
Qed.

Lemma marked_encodable (r : http.Request) key v :
  is_Some (json.EncodeValue WriteString v) ->
  (∀ k w, Attributes (marked r key v) !! k = Some w ->
          is_Some (json.EncodeValue WriteString w))
  <-> encodable_but WriteString key (attributes.All r).
Proof.
  intros Hv. unfold marked, newRequest, encodable_but. simpl.
  unfold attributes.All at 1. simpl. split.
  - intros H k w Hk Hne. apply (H k). by rewrite lookup_insert_ne.
  - intros H k w [[<- <-]|[Hne Hk]]%lookup_insert_Some; [done|]. by eapply H.
Qed.

(** X5: a validator returns either data and no error, or an error and no
    data. It returns data exactly when the request has a bag and the
    encoder can write every value of the bag under the other keys (what was
    under the marker's key does not matter: the marker replaces it). *)
Theorem validator_succeeds_iff (r : http.Request) (topics : list string) :
  exactly_one (SAV r).1 ∧ exactly_one (TAV r topics).1
  ∧ ((∃ data, (SAV r).1 = (Some data, None))
     <-> is_Some (attrs r)
         ∧ encodable_but WriteString joinServer (attributes.All r))
  ∧ ((∃ data, (TAV r topics).1 = (Some data, None))
     <-> is_Some (attrs r)
         ∧ encodable_but WriteString joinTopics (attributes.All r)).
Proof.
  assert (∀ op res, (∃ data, wrap op res = (Some data, None))
                    <-> ∃ data : string, res = (Some data, None)) as Hwrap.
  { intros op res. split; intros [data H]; exists data.
    - by eapply wrap_Some.
    - by rewrite H. }
  destruct (attrs r) as [bag|] eqn:Hbag.
  - rewrite (SAV_bag _ _ _ r bag Hbag), (TAV_bag _ _ _ r topics bag Hbag). simpl.
    split; [apply Marshal_exactly_one|]. split; [apply Marshal_exactly_one|].
    rewrite !Hwrap, !Marshal_Some_iff, !marked_encodable by done.
    split; (split; [by split|by intros [_ ?]]).
  - unfold ServerAccessValidator, TopicsAccessValidator, attributes.Set'.
    rewrite Hbag. simpl. split; [done|]. split; [done|].
    split; (split; [by intros [? ?]|by intros [[? ?] _]]).
Qed.

End ValidatorMore.

Lemma validator_succeeds_iff_witness :
  ∃ data, (ServerAccessValidator json.quote map_to_list map_to_list
             (with_attrs sample_request (Some sample_bag))).1 = (Some data, None).
Proof.
  apply (proj1 (proj2 (proj2
           (validator_succeeds_iff json.quote map_to_list map_to_list
              (λ m, reflexivity _)
              (with_attrs sample_request (Some sample_bag)) [])))).
  split; [by eexists|].
  intros k v Hk Hne. unfold attributes.All, sample_bag in Hk. simpl in Hk.
  apply lookup_insert_Some in Hk as [[<- <-]|[_ Hk]]; [by eexists|].
  apply lookup_singleton_Some in Hk as [<- _]. done.
Defined.

(** ** [exec] and the pool *)

Section ExecMore.

Variable Exec : Payload -> Payload + error.
Variable Unmarshal : list Byte.byte -> AccessValidator -> AccessValidator + error.

Lemma getPld_frame choice σ :
  trace (getPld choice σ).2 = trace σ
  ∧ connections (getPld choice σ).2 = connections σ
  ∧ w_Header (getPld choice σ).2 = w_Header σ
  ∧ length (pldPool σ) ≤ S (length (pldPool (getPld choice σ).2)).
Proof.
  destruct (getPld_cases choice σ) as [(i & l & Hi & ->)| ->]; simpl.
  - repeat split. rewrite length_delete by eauto.
    apply lookup_lt_Some in Hi. lia.
  - repeat split. lia.
Qed.

(** The state that [exec] leaves, whatever the worker answers. *)
Lemma exec_state choice ctx σ :
  (exec Exec Unmarshal choice ctx σ).2
  = set_pldPool (λ free, (getPld choice σ).1 :: free)
      (set_heap (alter (λ _, New) (getPld choice σ).1)
         (logged [RLock; RUnlock] (getPld choice σ).2))
  ∧ exactly_one (exec Exec Unmarshal choice ctx σ).1.
Proof.
  unfold exec, bind. destruct (getPld choice σ) as [pd [hp pl cs wh tr]].
  cbv [modify emit get ret putPld bind set_heap set_trace set_pldPool logged
       heap pldPool connections w_Header trace fst snd].
  destruct (Exec _) as [rsp|err]; [destruct (Unmarshal _ _)|];
    (split; [|done]); rewrite <- !app_assoc, !alter_alter_eq;
    (f_equal; apply alter_ext; by intros [??] _).
Qed.

(** X10: on a pool that keeps its invariant, a call of [exec] returns a
    value or an error, never both and never neither; it takes the read lock
    once and gives it back once; and whatever the worker answers, the
    payload it took is back on top of the free list, with both buffers
    empty, so the free list is never shorter after the call than before. *)
Theorem exec_gives_back (choice : option nat) (ctx : list Byte.byte)
    (σ : World) (held : list loc) (Hinv : pool_inv (σ, held)) :
  let pd := (getPld choice σ).1 in
  let σ' := (exec Exec Unmarshal choice ctx σ).2 in
  exactly_one (exec Exec Unmarshal choice ctx σ).1
  ∧ trace σ' = trace σ ++ [RLock; RUnlock]
  ∧ pldPool σ' = pd :: pldPool (getPld choice σ).2
  ∧ heap σ' !! pd = Some New
  ∧ length (pldPool σ) ≤ length (pldPool σ')
  ∧ connections σ' = connections σ ∧ w_Header σ' = w_Header σ.
Proof.
  intros pd σ'. subst pd σ'.
  destruct (exec_state choice ctx σ) as [-> Hone].
  destruct (getPld_frame choice σ) as (Ht & Hc & Hw & Hlen).
  destruct (getPld_allocated choice σ held Hinv) as [p Hp].
  destruct (getPld choice σ) as [pd [hp pl cs wh tr]]. simpl in *.
  split; [done|]. split; [by rewrite Ht|]. split; [done|].
  split; [by rewrite lookup_alter_eq, Hp|]. split; [lia|]. done.
Qed.

End ExecMore.

Lemma exec_gives_back_witness :
  pldPool (exec empty_Exec (status_of 200) None [] init).2 = [0].
Proof.
  exact (proj1 (proj2 (proj2
           (exec_gives_back empty_Exec (status_of 200) None [] init []
              pool_inv_init)))).
Defined.

(** ** [Workers] *)

Section WorkersFacts.

Variables BaseProcess State : Type.
Variable WorkerProcessState : BaseProcess -> State + error.

Lemma Workers_loop_states workers ps :
  Workers_loop WorkerProcessState workers ps
  = (ps ++.) <$> states_of WorkerProcessState workers.
Proof.
  revert ps. induction workers as [|w workers IH]; intros ps; simpl.
  - by rewrite app_nil_r.
  - unfold states_of in *. simpl. destruct (WorkerProcessState w) as [state|err];
      simpl; [|done]. rewrite IH.
    destruct (mapM _ workers) as [l|]; simpl; [|done]. by rewrite <- app_assoc.
Qed.

(** X14: [Workers] returns the states of all workers of the pool, one for
    each worker and in the order of the workers (an empty slice, not [nil],
    for a pool without workers), and [nil] as soon as the state of one
    worker cannot be read; it gives the read lock back in both cases, and
    also when there is no pool and the call panics. *)
Theorem Workers_spec (workers : list BaseProcess) (σ : World) :
  Workers WorkerProcessState (Some workers) σ
    = (states_of WorkerProcessState workers, logged [RLock; RUnlock] σ)
  ∧ (∀ ps, states_of WorkerProcessState workers = Some ps ->
           Forall2 (λ w state, WorkerProcessState w = inl state) workers ps)
  ∧ (states_of WorkerProcessState workers = None
     <-> ∃ w err, w ∈ workers ∧ WorkerProcessState w = inr err)
  ∧ Workers WorkerProcessState None σ
    = (None, logged [RLock; Panic; RUnlock] σ).
Proof.
  split; [|split; [|split]].
  - unfold Workers, bind. cbv [emit modify ret]. rewrite Workers_loop_states.
    destruct (states_of _ workers); simpl; by destruct σ; unfold logged, set_trace;
      simpl; rewrite <- app_assoc.
  - intros ps Hps. apply mapM_Some in Hps.
    eapply Forall2_impl; [exact Hps|]. intros w state. simpl.
    by destruct (WorkerProcessState w) as [?|?]; intros [= ->].
  - unfold states_of. rewrite mapM_None, Exists_exists. split.
    + intros (w & Hin & Hw). destruct (WorkerProcessState w) as [?|err] eqn:E;
        [done|]. by exists w, err.
    + intros (w & err & Hin & Hw). exists w. split; [done|]. by rewrite Hw.
  - unfold Workers, bind. cbv [emit modify ret]. destruct σ.
    unfold logged, set_trace. simpl. by rewrite <- !app_assoc.
Qed.

End WorkersFacts.

(** ** The handler, path by path *)

Lemma store_then_delete (id : string) (c : gset string) :
  ({[id]} ∪ c) ∖ {[id]} = c ∖ {[id]}
  ∧ (id ∉ c -> ({[id]} ∪ c) ∖ {[id]} = c).
Proof.
  split; [|intros Hnew]; apply set_eq; intros x;
    rewrite !elem_of_difference, !elem_of_union, !elem_of_singleton.
  - tauto.
  - split; [tauto|]. intros Hx. split; [by right|]. by intros ->.
Qed.

Section HandlerMore.

Variable cfg : Config.
Variable isOriginAllowed : string -> Config -> bool.
Variable canon : string -> string.
Variable range_order : gmap string (list string) -> list (string * list string).
Variable accessValidator : http.Request -> list string -> M (result AccessValidator).
Variable a : Answers.
Variable r : http.Request.

#[local] Abbreviation handler :=
  (Middleware cfg isOriginAllowed canon range_order accessValidator a r).

(** X6: a request for another path than the configured one goes to the next
    handler and to nothing else: the lock is not taken, the validator is
    not asked, nothing is written, the registry and the pool are as they
    were. *)
Theorem Middleware_other_path (σ : World) (Hpath : URL_Path r ≠ Path cfg) :
  (handler σ).2 = logged (span_open r ++ [NextServeHTTP] ++ span_close r) σ.
Proof.
  rewrite Middleware_handle. unfold handle. rewrite bool_decide_true by done.
  rewrite emit_logged. simpl. by rewrite !logged_logged.
Qed.

(** X7: when the validator returns an error, the handler gives the lock
    back, answers 400 and returns, whether or not a response came with the
    error: no header and no body of the worker is written, nothing is
    upgraded or stored. *)
Theorem Middleware_validator_error (σ σ1 : World)
    (val : option AccessValidator) (err : error)
    (Hpath : URL_Path r = Path cfg)
    (Horigin : isOriginAllowed (Get canon (http.Header r) OriginHeaderKey) cfg = true)
    (Hval : accessValidator r [] (logged (span_open r ++ [RLock]) σ)
            = ((val, Some err), σ1)) :
  (handler σ).2
  = logged ([RUnlock; WriteHeader StatusBadRequest] ++ span_close r) σ1.
Proof.
  rewrite Middleware_handle. rewrite <- logged_logged in Hval.
  rewrite (handle_validated _ _ _ _ _ _ _ _ _ _ Hpath Horigin Hval).
  destruct val; cbv beta iota; rewrite emit_logged; simpl;
    by rewrite !logged_logged.
Qed.

(** X8: when the worker admits the request and the upgrade to a WebSocket
    fails, the handler logs the failure and returns: no connection is
    stored, no executor is made, and the lock has been given back. *)
Theorem Middleware_upgrade_fails (σ σ1 : World) (val : AccessValidator) (e : error)
    (Hpath : URL_Path r = Path cfg)
    (Horigin : isOriginAllowed (Get canon (http.Header r) OriginHeaderKey) cfg = true)
    (Hval : accessValidator r [] (logged (span_open r ++ [RLock]) σ)
            = ((Some val, None), σ1))
    (Hok : Status val = StatusOK)
    (Hup : upgrade_err a = Some e) :
  (handler σ).2
  = logged ([RUnlock; UpgradeHTTP; Log Error "upgrade connection"]
            ++ span_close r) σ1.
Proof.
  rewrite Middleware_handle. rewrite <- logged_logged in Hval.
  rewrite (handle_validated _ _ _ _ _ _ _ _ _ _ Hpath Horigin Hval).
  rewrite bool_decide_false by (by intros ?). rewrite Hup.
  unfold bind. rewrite !emit_logged. simpl. by rewrite !logged_logged.
Qed.

(** X9: when the command loop of an upgraded connection returns [nil], the
    handler deletes the connection from the registry, runs [CleanUp],
    closes the body of the request and closes the connection, in this
    order; an error of either close is logged and does not stop the
    sequence. The registry is then what it was before the connection was
    stored, without the connection's identifier; it is what it was when
    the identifier was new. *)
Theorem Middleware_cleanup_on_nil (σ σ1 : World) (val : AccessValidator)
    (Hpath : URL_Path r = Path cfg)
    (Horigin : isOriginAllowed (Get canon (http.Header r) OriginHeaderKey) cfg = true)
    (Hval : accessValidator r [] (logged (span_open r ++ [RLock]) σ)
            = ((Some val, None), σ1))
    (Hok : Status val = StatusOK)
    (Hup : upgrade_err a = None)
    (Hloop : loop_err a = None) :
  let id := new_uuid a in
  trace (handler σ).2
  = trace σ1
    ++ [RUnlock; UpgradeHTTP; NewExecutor id;
        Log Debug "websocket client connected"; StartCommandLoop id;
        CleanUp id; BodyClose]
    ++ match body_close_err a with
       | Some _ => [Log Error "body close"]
       | None => []
       end
    ++ [ConnClose id]
    ++ match conn_close_err a with
       | Some _ => [Log Error "connection close"]
       | None => []
       end
    ++ [Log Debug "disconnected"]
    ++ span_close r
  ∧ connections (handler σ).2 = connections σ1 ∖ {[id]}
  ∧ (id ∉ connections σ1 -> connections (handler σ).2 = connections σ1)
  ∧ w_Header (handler σ).2 = w_Header σ1.
Proof.
  intros id. subst id.
  pose proof (Middleware_loop_exit cfg isOriginAllowed canon range_order
                accessValidator a r σ σ1 val Hpath Horigin Hval Hok Hup) as H.
  cbv zeta in H. rewrite Hloop in H. destruct H as [Htrace Hconn].
  split; [exact Htrace|]. rewrite Hconn.
  destruct (store_then_delete (new_uuid a) (connections σ1)) as [Hdel Hnew].
  split; [exact Hdel|]. split; [exact Hnew|].
  rewrite Middleware_handle. rewrite <- logged_logged in Hval.
  rewrite (handle_validated _ _ _ _ _ _ _ _ _ _ Hpath Horigin Hval).
  rewrite bool_decide_false by (by intros ?). rewrite Hup, Hloop.
  destruct σ1 as [hp pl cs wh tr].
  by destruct (body_close_err a), (conn_close_err a).
Qed.

(** X13: on the deny path, the values that the response has under a key
    after the handler are the values it had before, followed by the values
    of the worker's headers whose canonical key is that key, in the order
    of the worker's lists: [Add] appends, it does not replace. For a
    response of the worker with one header, the values of that header
    follow what was there, in their order. *)
Theorem Middleware_denied_headers (σ σ1 : World) (val : AccessValidator)
    (Horder : iteration_order range_order)
    (Hpath : URL_Path r = Path cfg)
    (Horigin : isOriginAllowed (Get canon (http.Header r) OriginHeaderKey) cfg = true)
    (Hval : accessValidator r [] (logged (span_open r ++ [RLock]) σ)
            = ((Some val, None), σ1))
    (Hdeny : Status val ≠ StatusOK) :
  (∀ K, Values (w_Header (handler σ).2) K
        = Values (w_Header σ1) K
          ++ mjoin ((λ '(k, vs), if decide (canon k = K) then vs else [])
                      <$> range_order (Header val)))
  ∧ (∀ k vs, Header val = {[ k := vs ]} ->
             Values (w_Header (handler σ).2) (canon k)
             = Values (w_Header σ1) (canon k) ++ vs).
Proof.
  assert (∀ K, Values (w_Header (handler σ).2) K
               = Values (w_Header σ1) K
                 ++ mjoin ((λ '(k, vs), if decide (canon k = K) then vs else [])
                             <$> range_order (Header val))) as Hall.
  { intros K. rewrite Middleware_handle. rewrite <- logged_logged in Hval.
    rewrite (handle_validated _ _ _ _ _ _ _ _ _ _ Hpath Horigin Hval).
    rewrite bool_decide_true by done. rewrite deny_state.
    destruct σ1 as [hp pl cs wh tr]. cbv [logged set_trace set_w_Header w_Header].
    apply Values_propagated. }
  split; [exact Hall|]. intros k vs Hone. rewrite Hall.
  assert (range_order (Header val) = [(k, vs)]) as ->.
  { apply Permutation_singleton_r. rewrite (Horder (Header val)), Hone.
    by rewrite map_to_list_singleton. }
  simpl. rewrite decide_True by done. by rewrite app_nil_r.
Qed.

End HandlerMore.

Lemma Middleware_other_path_witness :
  trace (Middleware sample_cfg on_the_list id map_to_list unreachable loop_ends
           other_request init).2
  = [SpanStart "gateway"; NextServeHTTP; SpanEnd].
Proof.
  rewrite (Middleware_other_path sample_cfg on_the_list id map_to_list unreachable
             loop_ends other_request init); [reflexivity|discriminate].
Defined.

Lemma Middleware_validator_error_witness :
  trace (Middleware sample_cfg on_the_list id map_to_list unreachable loop_ends
           sample_request init).2
  = [RLock; RUnlock; WriteHeader 400].
Proof.
  rewrite (Middleware_validator_error sample_cfg on_the_list id map_to_list
             unreachable loop_ends sample_request init (logged [RLock] init)
             None (Foreign None "worker pool is down") eq_refl eq_refl eq_refl).
  reflexivity.
Defined.

Lemma Middleware_upgrade_fails_witness :
  trace (Middleware sample_cfg on_the_list id map_to_list accept upgrade_fails
           sample_request init).2
  = [RLock; RUnlock; UpgradeHTTP; Log Error "upgrade connection"].
Proof.
  rewrite (Middleware_upgrade_fails sample_cfg on_the_list id map_to_list
             accept upgrade_fails sample_request init (logged [RLock] init)
             (mkAccessValidator ∅ 200 []) (Foreign None "bad handshake")
             eq_refl eq_refl eq_refl eq_refl eq_refl).
  reflexivity.
Defined.

Lemma Middleware_cleanup_on_nil_witness :
  trace (Middleware sample_cfg on_the_list id map_to_list accept close_fails
           sample_request init).2
  = [RLock; RUnlock; UpgradeHTTP; NewExecutor "5e2f";
     Log Debug "websocket client connected"; StartCommandLoop "5e2f";
     CleanUp "5e2f"; BodyClose; Log Error "body close"; ConnClose "5e2f";
     Log Debug "disconnected"].
Proof.
  rewrite (proj1 (Middleware_cleanup_on_nil sample_cfg on_the_list id map_to_list
                    accept close_fails sample_request init (logged [RLock] init)
                    (mkAccessValidator ∅ 200 [])
                    eq_refl eq_refl eq_refl eq_refl eq_refl eq_refl)).
  reflexivity.
Defined.

Lemma Middleware_denied_headers_witness :
  Values (w_Header (Middleware sample_cfg on_the_list id map_to_list refuse
                      loop_ends sample_request init).2) "X-Reason"
  = ["banned"].
Proof.
  assert (Status refused ≠ StatusOK) as Hdeny by discriminate.
  exact (proj2 (Middleware_denied_headers sample_cfg on_the_list id map_to_list
                  refuse loop_ends sample_request init (logged [RLock] init)
                  refused (λ m, reflexivity _) eq_refl eq_refl eq_refl Hdeny)
           "X-Reason" ["banned"] eq_refl).
Defined.

(** ** The handler with the default validator *)

Section Counting.

Lemma panics_app t1 t2 : panics (t1 ++ t2) = panics t1 + panics t2.
Proof. unfold panics. by rewrite List.filter_app, length_app. Qed.

Lemma panics_span (r : http.Request) :
  panics (span_open r) = 0 ∧ panics (span_close r) = 0.
Proof. unfold span_open, span_close. by destruct (OtelTracerName r). Qed.

Lemma trace_logged events σ : trace (logged events σ) = trace σ ++ events.
Proof. by destruct σ. Qed.

Lemma trace_put f g events σ :
  trace (set_pldPool f (set_heap g (logged events σ))) = trace σ ++ events.
Proof. by destruct σ. Qed.

End Counting.

(** Runs a piece of the handler on a state, and reads off its trace. *)
Ltac run_tail :=
  intros [];
  cbv [bind emit modify ret log_if_error logged set_trace set_connections
       set_w_Header heap pldPool connections w_Header trace snd];
  rewrite <- ?app_assoc; cbn [app]; reflexivity.

Section HandlerTail.

Variable cfg : Config.
Variable isOriginAllowed : string -> Config -> bool.
Variable canon : string -> string.
Variable range_order : gmap string (list string) -> list (string * list string).
Variable accessValidator : http.Request -> list string -> M (result AccessValidator).
Variable a : Answers.
Variable r : http.Request.

(** After a validator that has returned a value or an error, the handler
    dereferences nothing that is [nil]. *)
Lemma Middleware_tail_no_panic σ res σ1 :
  URL_Path r = Path cfg ->
  isOriginAllowed (Get canon (http.Header r) OriginHeaderKey) cfg = true ->
  accessValidator r [] (logged (span_open r ++ [RLock]) σ) = (res, σ1) ->
  res ≠ (None, None) ->
  ∃ tail,
    trace (Middleware cfg isOriginAllowed canon range_order accessValidator a r σ).2
    = trace σ1 ++ tail
    ∧ panics tail = 0.
Proof.
  intros Hpath Horigin Hval Hres. rewrite Middleware_handle.
  rewrite <- logged_logged in Hval.
  rewrite (handle_validated _ _ _ _ _ _ _ _ _ _ Hpath Horigin Hval).
  assert (∀ (m : M unit) events,
            (∀ σ0, (m σ0).2 = set_w_Header (λ _, w_Header (m σ0).2)
                                (set_connections (λ _, connections (m σ0).2)
                                   (logged events σ0))) ->
            panics events = 0 ->
            ∃ tail, trace (logged (span_close r) (m (logged [RUnlock] σ1)).2)
                    = trace σ1 ++ tail
                    ∧ panics tail = 0) as Hshape.
  { intros m events Hm Hp. exists ([RUnlock] ++ events ++ span_close r).
    rewrite (Hm (logged [RUnlock] σ1)). destruct σ1. simpl.
    rewrite <- !app_assoc. split; [done|].
    change (RUnlock :: events ++ span_close r)
      with ([RUnlock] ++ events ++ span_close r).
    rewrite !panics_app, Hp. by destruct (panics_span r) as [_ ->]. }
  destruct res as [[val|] [err|]]; [| | |done].
  - by apply (Hshape _ [WriteHeader StatusBadRequest]); [intros []|..].
  - case_bool_decide.
    + eapply (Hshape _ [WriteHeader (Status val); Write (Body val)]); [|done..].
      intros σ0. rewrite deny_state. by destruct σ0.
    + destruct (upgrade_err a) as [e|].
      { by apply (Hshape _ [UpgradeHTTP; Log Error "upgrade connection"]);
          [run_tail|..]. }
      destruct (loop_err a) as [e|].
      { by eapply (Hshape _ [UpgradeHTTP; NewExecutor _; Log Debug _;
                              StartCommandLoop _; Log Error _]);
          [run_tail|..]. }
      destruct (body_close_err a), (conn_close_err a);
        (eapply (Hshape _ _); [run_tail|done..]).
  - by apply (Hshape _ [WriteHeader StatusBadRequest]); [intros []|..].
Qed.

End HandlerTail.

Section DefaultHandler.

Variable cfg : Config.
Variable isOriginAllowed : string -> Config -> bool.
Variable canon : string -> string.
Variable range_order : gmap string (list string) -> list (string * list string).
Variable Exec : Payload -> Payload + error.
Variable Unmarshal : list Byte.byte -> AccessValidator -> AccessValidator + error.
Variable WriteString : string -> string.
Variable header_order : gmap string (list string) -> list (string * list string).
Variable attr_order : gmap string AttrValue -> list (string * AttrValue).
Variable choice : option nat.
Variable a : Answers.
Variable r : http.Request.

#[local] Abbreviation validate :=
  (defaultAccessValidator Exec Unmarshal WriteString header_order attr_order choice).
#[local] Abbreviation served :=
  (Middleware cfg isOriginAllowed canon range_order validate a r).

(** The default validator in server mode: it logs, and asks the worker
    under the read lock unless the serialization failed; it returns a value
    or an error. *)
Lemma validate_server σ0 :
  ∃ events,
    trace (validate r [] σ0).2 = trace σ0 ++ events
    ∧ panics events = 0
    ∧ acquired events = released_locks events
    ∧ (validate r [] σ0).1 ≠ (None, None).
Proof.
  unfold defaultAccessValidator, bind. rewrite emit_logged.
  rewrite bool_decide_true by done. cbv beta iota.
  destruct (ServerAccessValidator _ _ _ (attributes.Init r)) as [[ctx [err|]] r'].
  - exists [Log Debug "validation"]. unfold ret. cbn [fst snd].
    by rewrite trace_logged.
  - destruct (exec_state Exec Unmarshal choice (bytes_of ctx)
                (logged [Log Debug "validation"] σ0)) as [Hstate Hone].
    destruct (getPld_frame choice (logged [Log Debug "validation"] σ0))
      as (Ht & _).
    destruct (exec Exec Unmarshal choice (bytes_of ctx)
                (logged [Log Debug "validation"] σ0)) as [[val err] σ'].
    simpl in Hstate, Hone. subst σ'.
    exists ([Log Debug "validation"] ++ [RLock; RUnlock]).
    destruct err as [err|], val as [val|]; try done; unfold ret; cbn [fst snd];
      rewrite trace_put, Ht, trace_logged, <- app_assoc; done.
Qed.

(** X11: with the default validator the handler never dereferences [nil]:
    the validator returns a response or an error, so the status of a
    missing response is never read, whatever the request, the worker's
    answer and the fate of the connection. *)
Theorem default_validator_never_panics (σ : World) :
  panics (trace (served σ).2) = panics (trace σ).
Proof.
  destruct (decide (URL_Path r = Path cfg)) as [Hpath|Hpath].
  2:{ rewrite Middleware_handle. unfold handle. rewrite bool_decide_true by done.
      rewrite emit_logged. cbn [snd]. rewrite !trace_logged, !panics_app.
      destruct (panics_span r) as [-> ->].
      change (panics [NextServeHTTP]) with 0. lia. }
  destruct (isOriginAllowed (Get canon (http.Header r) OriginHeaderKey) cfg)
    eqn:Horigin.
  - destruct (validate_server (logged (span_open r ++ [RLock]) σ))
      as (events & Hev & Hp & _ & Hres).
    destruct (validate r [] (logged (span_open r ++ [RLock]) σ))
      as [res σ1] eqn:Hval. simpl in Hev, Hres.
    destruct (Middleware_tail_no_panic cfg isOriginAllowed canon range_order
                validate a r σ res σ1 Hpath Horigin Hval Hres)
      as (tail & -> & Htail).
    rewrite Hev, !panics_app, Hp, Htail.
    destruct (panics_span r) as [-> _]. change (panics [RLock]) with 0. lia.
  - destruct (Middleware_origin_mismatch cfg isOriginAllowed canon range_order
                validate a r σ Hpath Horigin) as (-> & _).
    rewrite !panics_app. destruct (panics_span r) as [-> ->].
    change (panics [RLock; WriteHeader StatusMethodNotAllowed]) with 0. lia.
Qed.

(** X12: with the default validator the handler gives the read lock back
    as often as it takes it on every path but one: the request for another
    path, the error of the validator, the denial, the failed upgrade, the
    command loop that ends with [nil] or with an error. The exception is
    the request on the configured path whose origin is not allowed. *)
Theorem default_validator_lock_balance (σ : World)
    (Hnot : ¬ (URL_Path r = Path cfg
               ∧ isOriginAllowed (Get canon (http.Header r) OriginHeaderKey) cfg
                 = false)) :
  acquired (trace (served σ).2) + released_locks (trace σ)
  = released_locks (trace (served σ).2) + acquired (trace σ).
Proof.
  destruct (decide (URL_Path r = Path cfg)) as [Hpath|Hpath].
  2:{ rewrite Middleware_handle. unfold handle. rewrite bool_decide_true by done.
      rewrite emit_logged. cbn [snd]. rewrite !trace_logged.
      rewrite !acquired_app, !released_locks_app, acquired_span_open,
        acquired_span_close, released_locks_span_open, released_locks_span_close.
      change (acquired [NextServeHTTP]) with 0.
      change (released_locks [NextServeHTTP]) with 0. lia. }
  destruct (isOriginAllowed (Get canon (http.Header r) OriginHeaderKey) cfg)
    eqn:Horigin; [|by destruct Hnot].
  destruct (validate_server (logged (span_open r ++ [RLock]) σ))
    as (events & Hev & _ & Hbal & _).
  destruct (validate r [] (logged (span_open r ++ [RLock]) σ))
    as [res σ1] eqn:Hval. simpl in Hev.
  destruct (Middleware_unlocks_after_validator cfg isOriginAllowed canon
              range_order validate a r σ res σ1 Hpath Horigin Hval)
    as (tail & -> & Ha & Hr).
  rewrite Hev.
  rewrite !acquired_app, !released_locks_app, acquired_span_open,
    released_locks_span_open, Ha, Hr, Hbal.
  change (acquired [RLock]) with 1. change (released_locks [RLock]) with 0. lia.
Qed.

End DefaultHandler.

Lemma default_validator_lock_balance_witness :
  acquired (trace (Middleware sample_cfg on_the_list id map_to_list (worker 403)
                     loop_ends sample_request init).2)
  = released_locks (trace (Middleware sample_cfg on_the_list id map_to_list
                             (worker 403) loop_ends sample_request init).2).
Proof.
  pose proof (default_validator_lock_balance sample_cfg on_the_list id map_to_list
                empty_Exec (status_of 403) json.quote map_to_list map_to_list
                None loop_ends sample_request init) as H.
  unfold worker. simpl acquired at 2 in H. simpl released_locks at 1 in H.
  rewrite Nat.add_0_r in H. rewrite H; [by rewrite Nat.add_0_r|].
  intros [_ Hno]. discriminate Hno.
Defined.

(** ** The life cycle *)

Section Lifecycle.

Lemma locked_app t1 t2 : locked (t1 ++ t2) = locked t1 + locked t2.
Proof. unfold locked. by rewrite List.filter_app, length_app. Qed.

Lemma unlocked_app t1 t2 : unlocked (t1 ++ t2) = unlocked t1 + unlocked t2.
Proof. unfold unlocked. by rewrite List.filter_app, length_app. Qed.

(** X15: a [Serve] that cannot get the driver of the broker sends the error
    (under the operation's name) on its channel and starts nothing: no
    goroutine, no fan-out pool. A [Stop] after it does not touch the
    fan-out pool, which is [nil], and cancels; a [Stop] after a [Serve]
    that started stops the fan-out pool, then cancels. [Stop] returns
    [nil]. *)
Theorem Stop_after_Serve (broker : string) (driver : bool) (err : error)
    (p : lifecycle.Plugin) (Hfresh : lifecycle.workersPool p = false) :
  let failed := lifecycle.Serve broker (driver, Some err) p in
  let started := lifecycle.Serve broker (driver, None) p in
  lifecycle.trace (lifecycle.Stop failed).1
    = lifecycle.trace p
      ++ [lifecycle.GetDriver broker;
          lifecycle.ErrChSend (E (Some "websockets_plugin_serve") err);
          lifecycle.Cancel]
  ∧ lifecycle.workersPool failed = false
  ∧ lifecycle.trace (lifecycle.Stop started).1
    = lifecycle.trace p
      ++ [lifecycle.GetDriver broker; lifecycle.Go_pool;
          lifecycle.NewWorkersPool; lifecycle.Go_reader;
          lifecycle.WorkersPoolStop; lifecycle.Cancel]
  ∧ (lifecycle.Stop failed).2 = None
  ∧ (lifecycle.Stop started).2 = None.
Proof.
  destruct p as [sr wp pp av tr]. simpl in Hfresh. subst wp.
  cbv [lifecycle.Serve lifecycle.Stop lifecycle.emit lifecycle.trace
       lifecycle.workersPool lifecycle.subReader lifecycle.phpPool
       lifecycle.accessValidator fst snd].
  rewrite <- !app_assoc. done.
Qed.

(** X16: [Reset] and the goroutine of [Serve] that creates the pool of
    workers give the write lock back on every way out, as their last step:
    whether the pool resets, fails to reset or is missing (where [Reset]
    panics), and whether the pool is created or not. [Reset] returns the
    error of the pool under its operation's name, and [nil] when the pool
    resets; the goroutine sets the validator exactly when the pool is
    created without an error, and sends the error on the channel
    otherwise. *)
Theorem write_lock_released (reset : option error) (pool : bool * option error)
    (p : lifecycle.Plugin) :
  let after_reset := (lifecycle.Reset reset p).1 in
  let after_pool := lifecycle.Serve_pool pool p in
  locked (lifecycle.trace after_reset) = S (locked (lifecycle.trace p))
  ∧ unlocked (lifecycle.trace after_reset) = S (unlocked (lifecycle.trace p))
  ∧ last (lifecycle.trace after_reset) = Some lifecycle.Unlock
  ∧ (lifecycle.Reset reset p).2
    = (if lifecycle.phpPool p then E (Some "ws_plugin_reset") <$> reset else None)
  ∧ locked (lifecycle.trace after_pool) = S (locked (lifecycle.trace p))
  ∧ unlocked (lifecycle.trace after_pool) = S (unlocked (lifecycle.trace p))
  ∧ last (lifecycle.trace after_pool) = Some lifecycle.Unlock
  ∧ lifecycle.accessValidator after_pool
    = match pool.2 with
      | Some _ => lifecycle.accessValidator p
      | None => true
      end
  ∧ (∀ err, pool.2 = Some err ->
            lifecycle.ErrChSend (E (Some "websockets_plugin_serve") err)
            ∈ lifecycle.trace after_pool).
Proof.
  destruct p as [sr wp pp av tr], pool as [created failure].
  cbv [lifecycle.Serve_pool lifecycle.Reset lifecycle.emit lifecycle.trace
       lifecycle.workersPool lifecycle.subReader lifecycle.phpPool
       lifecycle.accessValidator fst snd].
  destruct pp, reset as [e|], failure as [f|]; cbn [fst snd lifecycle.trace];
    rewrite ?last_snoc, <- ?app_assoc, ?locked_app, ?unlocked_app;
    repeat (split; [first [done | cbn; lia]|]);
    intros err [= <-] || (intros err ?; done);
    rewrite !elem_of_app, !elem_of_cons; tauto.
Qed.

End Lifecycle.

Lemma Stop_after_Serve_witness :
  lifecycle.trace
    (lifecycle.Stop
       (lifecycle.Serve "memory" (false, Some (Foreign None "no such driver"))
          lifecycle.init)).1
  = [lifecycle.GetDriver "memory";
     lifecycle.ErrChSend
       (E (Some "websockets_plugin_serve") (Foreign None "no such driver"));
     lifecycle.Cancel].
Proof.
  exact (proj1 (Stop_after_Serve "memory" false (Foreign None "no such driver")
                  lifecycle.init eq_refl)).
Defined.

(** ** The errors of the default validator *)

Section ValidatorErrors.

Variable Exec : Payload -> Payload + error.
Variable Unmarshal : list Byte.byte -> AccessValidator -> AccessValidator + error.
Variable WriteString : string -> string.
Variable header_order : gmap string (list string) -> list (string * list string).
Variable attr_order : gmap string AttrValue -> list (string * AttrValue).
Hypothesis attr_order_valid : iteration_order attr_order.

(** X17: the two modes of the default validator build their errors in two
    ways. When the call of the worker or the decoding of its answer fails,
    server mode returns the error of [exec] wrapped without an operation,
    so the worker's error stays its cause and [errors.Is] still finds its
    kind; topic mode returns a new error that has the operation only: the
    cause is dropped, and [errors.Is] finds no kind in it, whatever the
    worker's error was. When the worker answers, the answer is returned;
    the error is [nil], but in topic mode with a status other than 200,
    where it is the operation around [access forbidden, code: <status>]. *)
Theorem default_validator_errors
    (choice : option nat) (r : http.Request) (topics : list string)
    (σ : World) (held : list loc) (Hinv : pool_inv (σ, held)) :
  ∃ p,
    let res :=
      (defaultAccessValidator Exec Unmarshal WriteString header_order attr_order
         choice r topics σ).1 in
    match worker_answer Exec Unmarshal p with
    | inr e =>
        ∃ err,
          res = (None, Some err)
          ∧ err = match topics with
                  | [] => E None (E (Some "exec") e)
                  | _ :: _ => E_op "access_validator"
                  end
          ∧ ∀ kind, errors.Is kind err
                    = match topics with
                      | [] => errors.Is kind e
                      | _ :: _ => false
                      end
    | inl v =>
        res = (Some v,
               match topics with
               | [] => None
               | _ :: _ =>
                   if bool_decide (Status v = StatusOK) then None
                   else Some (E (Some "access_validator")
                                (Errorf "access forbidden, code: %d" (Status v)))
               end)
    end.
Proof.
  unfold defaultAccessValidator, bind. rewrite emit_logged. cbv beta iota zeta.
  pose proof (pool_inv_logged [Log Debug "validation"] σ held Hinv) as Hinv'.
  destruct topics as [|t topics].
  - rewrite !bool_decide_true by done. cbv beta iota.
    destruct (SAV_Init WriteString header_order attr_order attr_order_valid r)
      as [data Hd].
    destruct (ServerAccessValidator _ _ _ (attributes.Init r)) as [[ctx err] r'].
    simpl in Hd. injection Hd as -> ->.
    destruct (exec_result Exec Unmarshal choice (bytes_of (Some data)) _ held Hinv')
      as (p & _ & Hres).
    exists p.
    destruct (exec Exec Unmarshal choice (bytes_of (Some data))
                (logged [Log Debug "validation"] σ)) as [[val err] σ'].
    simpl in Hres.
    destruct (worker_answer Exec Unmarshal p) as [v|e]; injection Hres as -> ->;
      simpl; [done|]. by eexists.
  - rewrite !bool_decide_false by done. cbv beta iota.
    destruct (TAV_Init WriteString header_order attr_order attr_order_valid r
                (t :: topics)) as [data Hd].
    destruct (TopicsAccessValidator _ _ _ (attributes.Init r) _) as [[ctx err] r'].
    simpl in Hd. injection Hd as -> ->.
    destruct (exec_result Exec Unmarshal choice (bytes_of (Some data)) _ held Hinv')
      as (p & _ & Hres).
    exists p.
    destruct (exec Exec Unmarshal choice (bytes_of (Some data))
                (logged [Log Debug "validation"] σ)) as [[val err] σ'].
    simpl in Hres.
    destruct (worker_answer Exec Unmarshal p) as [v|e]; injection Hres as -> ->;
      simpl; [|by eexists].
    repeat case_bool_decide; done.
Qed.

End ValidatorErrors.

Lemma default_validator_errors_witness :
  (websockets.defaultAccessValidator timed_out_Exec (status_of 200) json.quote
     map_to_list map_to_list None sample_request ["news"] websockets.init).1
  = (None, Some (E_op "access_validator")).
Proof.
  destruct (default_validator_errors timed_out_Exec (status_of 200) json.quote
              map_to_list map_to_list (λ m, reflexivity _)
              None sample_request ["news"] websockets.init [] pool_inv_init)
    as (p & H).
  assert (worker_answer timed_out_Exec (status_of 200) p
          = inr (Foreign (Some errors.TimeOut) "allocate timeout")) as Hw
    by reflexivity.
  cbv zeta in H. rewrite Hw in H. destruct H as (err & Hres & -> & _).
  exact Hres.
Defined.
